(** * MovieChain director import: a model of [add_directors.py]

    The script enriches the MovieChain SQLite store with two derived
    tables, [directors] and [movie_directors], computed from two IMDb
    extracts ([title.principals.tsv] and [name.basics.tsv]).

    The development follows [DirectorDatabaseBuilder] method by method:
    the two streaming passes are pure functions over the parsed rows of
    the extracts, the SQLite connection is a state-and-error monad over
    a record of tables, and [build] is the same sequence of steps as the
    Python method of that name. *)

From stdpp Require Import base option list gmap sets strings fin_maps.
From Stdlib Require Import NArith.

(** ** Rows of the two extracts

    [csv.DictReader] hands every record over as a dictionary; [row.get]
    gives [None] for a column the record lacks, hence the [option]s. *)

Record principal_row := PrincipalRow {
  pr_tconst : option string;
  pr_nconst : option string;
  pr_category : option string
}.

Record name_row := NameRow {
  nr_nconst : option string;
  nr_primaryName : option string
}.

(** Python truthiness of [row.get(..)]: [None] and the empty string are falsy. *)
Definition truthy (v : option string) : bool :=
  match v with
  | Some s => negb (String.eqb s EmptyString)
  | None => false
  end.

(** The IMDb null sentinel, the two characters backslash and [N]. *)
Definition null_sentinel : string := "\N".

(** ** Step 4: [extract_director_relationships] *)

(** [if nconst not in director_movies: director_movies[nconst] = set()]
    followed by [director_movies[nconst].add(tconst)]. *)
Definition add_relationship (director_movies : gmap string (gset string))
    (nconst tconst : string) : gmap string (gset string) :=
  let director_movies :=
    match director_movies !! nconst with
    | None => <[nconst := ∅]> director_movies
    | Some _ => director_movies
    end in
  alter (λ tconsts, tconsts ∪ {[tconst]}) nconst director_movies.

(** The body of the [for row in reader] loop. *)
Definition relationship_step (existing_movies : gset string)
    (director_movies : gmap string (gset string)) (row : principal_row)
    : gmap string (gset string) :=
  if negb (bool_decide (pr_category row = Some "director")) then director_movies
  else
    match pr_tconst row, pr_nconst row with
    | Some tconst, Some nconst =>
        if negb (truthy (Some tconst)) || negb (truthy (Some nconst))
           || negb (bool_decide (tconst ∈ existing_movies))
        then director_movies
        else add_relationship director_movies nconst tconst
    | _, _ => director_movies
    end.

Definition extract_director_relationships (existing_movies : gset string)
    (title_principals : list principal_row) : gmap string (gset string) :=
  foldl (relationship_step existing_movies) ∅ title_principals.

(** ** Step 5: [extract_director_names] *)

(** The loop variables of the scan. [ns_stopped] records that the loop
    was left through [break]. *)
Record name_scan := NameScan {
  ns_director_names : gmap string string;
  ns_rows_processed : nat;
  ns_names_found : nat;
  ns_stopped : bool
}.

(** [if name and name != '\\N'] *)
Definition valid_name (name : option string) : bool :=
  truthy name && negb (bool_decide (name = Some null_sentinel)).

Fixpoint scan_names (needed_nconsts : gset string) (rows : list name_row)
    (director_names : gmap string string) (rows_processed names_found : nat)
    : name_scan :=
  match rows with
  | [] => NameScan director_names rows_processed names_found false
  | row :: rows =>
      let rows_processed := S rows_processed in
      match nr_nconst row with
      | Some nconst =>
          if bool_decide (nconst ∈ needed_nconsts) then
            let name := nr_primaryName row in
            let '(director_names, names_found) :=
              match name with
              | Some n =>
                  if valid_name name
                  then (<[nconst := n]> director_names, S names_found)
                  else (director_names, names_found)
              | None => (director_names, names_found)
              end in
            if bool_decide (names_found = size needed_nconsts)
            then NameScan director_names rows_processed names_found true
            else scan_names needed_nconsts rows director_names
                   rows_processed names_found
          else scan_names needed_nconsts rows director_names
                 rows_processed names_found
      | None => scan_names needed_nconsts rows director_names
                  rows_processed names_found
      end
  end.

Definition extract_director_names (needed_nconsts : gset string)
    (name_basics : list name_row) : name_scan :=
  scan_names needed_nconsts name_basics ∅ 0 0.

(** ** The store

    The SQLite database as the script sees it: the [movies] table it
    reads, and the three derived tables, each absent ([None]) or present
    with its rows in insertion order. Indexes belong to their table and
    go away with it on [DROP TABLE]. *)

Record movie_row := MovieRow {
  mv_tconst : string;
  mv_columns : list string
}.

(** [(nconst, name)] and [(tconst, nconst)]. *)
Definition director_row : Type := string * string.
Definition link_row : Type := string * string.

Record link_table := LinkTable {
  lt_rows : list link_row;
  lt_indexes : list string
}.

Record store := Store {
  movies : list movie_row;
  directors : option (list director_row);
  movie_directors : option link_table;
  directors_fts : option (list (nat * string))
}.

Inductive db_error :=
  | TableExists (table : string)
  | NoSuchTable (table : string)
  | UniqueViolation (table : string)
  | IndexExists (index : string).

(** A method of the builder: it may raise, and it leaves a store behind
    in both cases. A statement that fails leaves the store as it found
    it; what the statements before it wrote stays (the script never
    rolls back). *)
Definition M (A : Type) : Type := store → (db_error + A) * store.

#[global] Instance M_ret : MRet M := λ A a st, (inr a, st).
#[global] Instance M_bind : MBind M := λ A B k m st,
  match m st with
  | (inr a, st') => k a st'
  | (inl e, st') => (inl e, st')
  end.

Definition raise {A} (e : db_error) : M A := λ st, (inl e, st).
Definition get_store : M store := λ st, (inr st, st).
Definition put_store (st : store) : M unit := λ _, (inr tt, st).

(** [self.conn.commit()]: the model has no crash in the middle of a
    method, so a commit changes nothing that a later step can see. *)
Definition commit : M unit := mret tt.

(** *** Statements *)

Definition drop_table_directors_fts : M unit :=
  st ← get_store;
  put_store (Store (movies st) (directors st) (movie_directors st) None).

Definition drop_table_movie_directors : M unit :=
  st ← get_store;
  put_store (Store (movies st) (directors st) None (directors_fts st)).

Definition drop_table_directors : M unit :=
  st ← get_store;
  put_store (Store (movies st) None (movie_directors st) (directors_fts st)).

Definition create_table_directors : M unit :=
  st ← get_store;
  match directors st with
  | Some _ => raise (TableExists "directors")
  | None =>
      put_store (Store (movies st) (Some []) (movie_directors st) (directors_fts st))
  end.

Definition create_table_movie_directors : M unit :=
  st ← get_store;
  match movie_directors st with
  | Some _ => raise (TableExists "movie_directors")
  | None =>
      put_store (Store (movies st) (directors st) (Some (LinkTable [] []))
                   (directors_fts st))
  end.

(** Rows are inserted one by one; a row whose primary key is already in
    the table makes the statement fail. *)
Fixpoint insert_rows {R K} `{EqDecision K} (key : R → K)
    (table batch : list R) : option (list R) :=
  match batch with
  | [] => Some table
  | r :: batch =>
      if decide (key r ∈ key <$> table) then None
      else insert_rows key (table ++ [r]) batch
  end.

(** [executemany("INSERT INTO directors (nconst, name) VALUES (?, ?)", batch)];
    the primary key is [nconst]. *)
Definition executemany_directors (batch : list director_row) : M unit :=
  st ← get_store;
  match directors st with
  | None => raise (NoSuchTable "directors")
  | Some rows =>
      match insert_rows fst rows batch with
      | None => raise (UniqueViolation "directors")
      | Some rows =>
          put_store (Store (movies st) (Some rows) (movie_directors st)
                       (directors_fts st))
      end
  end.

(** [executemany("INSERT INTO movie_directors (tconst, nconst) VALUES (?, ?)", batch)];
    the primary key is the pair. *)
Definition executemany_movie_directors (batch : list link_row) : M unit :=
  st ← get_store;
  match movie_directors st with
  | None => raise (NoSuchTable "movie_directors")
  | Some t =>
      match insert_rows id (lt_rows t) batch with
      | None => raise (UniqueViolation "movie_directors")
      | Some rows =>
          put_store (Store (movies st) (directors st)
                       (Some (LinkTable rows (lt_indexes t))) (directors_fts st))
      end
  end.

(** [CREATE VIRTUAL TABLE directors_fts USING fts5(..)] *)
Definition create_virtual_table_directors_fts : M unit :=
  st ← get_store;
  match directors_fts st with
  | Some _ => raise (TableExists "directors_fts")
  | None =>
      put_store (Store (movies st) (directors st) (movie_directors st) (Some []))
  end.

(** [INSERT INTO directors_fts (rowid, name) SELECT rowid, name FROM directors];
    the rowids of [directors] are the insertion ranks, from 1. *)
Definition populate_directors_fts : M unit :=
  st ← get_store;
  match directors st, directors_fts st with
  | None, _ => raise (NoSuchTable "directors")
  | _, None => raise (NoSuchTable "directors_fts")
  | Some rows, Some fts =>
      match insert_rows fst fts (imap (λ i r, (S i, r.2)) rows) with
      | None => raise (UniqueViolation "directors_fts")
      | Some fts =>
          put_store (Store (movies st) (directors st) (movie_directors st) (Some fts))
      end
  end.

(** [CREATE INDEX name ON movie_directors(..)] *)
Definition create_index_movie_directors (name : string) : M unit :=
  st ← get_store;
  match movie_directors st with
  | None => raise (NoSuchTable "movie_directors")
  | Some t =>
      if decide (name ∈ lt_indexes t) then raise (IndexExists name)
      else put_store (Store (movies st) (directors st)
                        (Some (LinkTable (lt_rows t) (lt_indexes t ++ [name])))
                        (directors_fts st))
  end.

(** ** The methods of [DirectorDatabaseBuilder] *)

(** [connect], [disconnect] and [compress_database] open, close and copy
    the database file; none of them touches a row. *)
Definition connect : M unit := mret tt.
Definition disconnect : M unit := mret tt.
Definition compress_database : M unit := mret tt.

Definition drop_existing_tables : M unit :=
  drop_table_directors_fts ;;
  drop_table_movie_directors ;;
  drop_table_directors ;;
  commit.

Definition create_tables : M unit :=
  create_table_directors ;;
  create_table_movie_directors ;;
  commit.

(** [SELECT tconst FROM movies], collected into a set. *)
Definition get_existing_movie_ids : M (gset string) :=
  st ← get_store;
  mret (list_to_set (mv_tconst <$> movies st)).

Definition batch_size : N := 50000.

(** The batching loop shared by the two insert methods: the pending
    batch is written and committed as soon as it holds [batch_size]
    rows; the loop returns the batch still pending at the end. *)
Fixpoint insert_batched {R} (executemany : list R → M unit)
    (items batch : list R) : M (list R) :=
  match items with
  | [] => mret batch
  | item :: items =>
      let batch := batch ++ [item] in
      if (batch_size <=? N.of_nat (length batch))%N then
        executemany batch ;; commit ;;
        insert_batched executemany items []
      else insert_batched executemany items batch
  end.

(** [# Insert remaining] *)
Definition insert_remaining {R} (executemany : list R → M unit)
    (batch : list R) : M unit :=
  match batch with
  | [] => mret tt
  | _ :: _ => executemany batch ;; commit
  end.

Definition insert_directors (director_names : gmap string string) : M unit :=
  batch ← insert_batched executemany_directors (map_to_list director_names) [];
  insert_remaining executemany_directors batch.

(** The pairs visited by the two nested [for] loops. The order in which
    a dict or a set is walked decides the order of the rows inside a
    table and nothing else; [map_to_list] and [elements] fix one. *)
Definition link_rows (director_movies : gmap string (gset string))
    : list link_row :=
  '(nconst, tconsts) ← map_to_list director_movies;
  (λ tconst, (tconst, nconst)) <$> elements tconsts.

Definition insert_movie_directors
    (director_movies : gmap string (gset string)) : M unit :=
  batch ← insert_batched executemany_movie_directors (link_rows director_movies) [];
  insert_remaining executemany_movie_directors batch.

Definition create_fts_index : M unit :=
  create_virtual_table_directors_fts ;;
  populate_directors_fts ;;
  commit.

Definition create_indexes : M unit :=
  create_index_movie_directors "idx_movie_directors_tconst" ;;
  create_index_movie_directors "idx_movie_directors_nconst" ;;
  commit.

(** [VACUUM] rewrites the file and keeps every row. *)
Definition vacuum_database : M unit := mret tt.

(** The two [SELECT COUNT] queries of [print_stats]. *)
Definition print_stats : M (nat * nat) :=
  st ← get_store;
  match directors st, movie_directors st with
  | None, _ => raise (NoSuchTable "directors")
  | _, None => raise (NoSuchTable "movie_directors")
  | Some ds, Some t => mret (length ds, length (lt_rows t))
  end.

(** Step 6 of [build]: keep the directors that have a name. *)
Definition filter_named (director_names : gmap string string)
    (director_movies : gmap string (gset string)) : gmap string (gset string) :=
  filter (λ kv, is_Some (director_names !! kv.1)) director_movies.

(** [build]: an exception of any step ends the run ([sys.exit(1)]), which
    is the [inl] of the result. *)
Definition build (title_principals : list principal_row)
    (name_basics : list name_row) : M unit :=
  connect ;;
  drop_existing_tables ;;
  create_tables ;;
  existing_movies ← get_existing_movie_ids;
  let director_movies :=
    extract_director_relationships existing_movies title_principals in
  let director_names :=
    ns_director_names (extract_director_names (dom director_movies) name_basics) in
  let director_movies := filter_named director_names director_movies in
  insert_directors director_names ;;
  insert_movie_directors director_movies ;;
  create_fts_index ;;
  create_indexes ;;
  vacuum_database ;;
  print_stats ;;
  disconnect ;;
  compress_database.

(** The rows of the two derived tables (none when the table is absent),
    as lists and as sets. *)
Definition director_rows (st : store) : list director_row :=
  default [] (directors st).
Definition movie_director_rows (st : store) : list link_row :=
  default [] (lt_rows <$> movie_directors st).
Definition director_set (st : store) : gset director_row :=
  list_to_set (director_rows st).
Definition link_set (st : store) : gset link_row :=
  list_to_set (movie_director_rows st).

(** ** The worked example *)

Definition example_store : store :=
  Store [MovieRow "t1" []; MovieRow "t2" []] None None None.
Definition example_principals : list principal_row :=
  [ PrincipalRow (Some "t1") (Some "n1") (Some "director");
    PrincipalRow (Some "t1") (Some "n1") (Some "actor");
    PrincipalRow (Some "t2") (Some "n2") (Some "director") ].
Definition example_names : list name_row :=
  [ NameRow (Some "n1") (Some "Alice"); NameRow (Some "n2") (Some null_sentinel) ].

(** Every entry of the multimap is a non-empty set of known movies. *)
Definition multimap_ok (existing_movies : gset string)
    (director_movies : gmap string (gset string)) : Prop :=
  ∀ nconst tconsts, director_movies !! nconst = Some tconsts →
    tconsts ≠ ∅ ∧ tconsts ⊆ existing_movies.

(** A method leaves the [movies] table as it found it, whether it
    returns or raises. *)
Definition keeps_movies {A} (m : M A) : Prop :=
  ∀ st, movies (m st).2 = movies st.

(** What one record of Extract B contributes, in the words of the
    design: a record counts when its key is needed and its name is
    present and not the sentinel, and it then records key to name. *)
Definition name_hit (needed_nconsts : gset string) (row : name_row) : bool :=
  match nr_nconst row with
  | Some nconst => bool_decide (nconst ∈ needed_nconsts)
  | None => false
  end && valid_name (nr_primaryName row).

Definition record_name (needed_nconsts : gset string)
    (director_names : gmap string string) (row : name_row)
    : gmap string string :=
  match nr_nconst row, nr_primaryName row with
  | Some nconst, Some name =>
      if name_hit needed_nconsts row then <[nconst := name]> director_names
      else director_names
  | _, _ => director_names
  end.

(** The mapping accumulated over a whole list of records, with no early
    exit. *)
Definition names_accumulated (needed_nconsts : gset string)
    (rows : list name_row) : gmap string string :=
  foldl (record_name needed_nconsts) ∅ rows.

(** The inputs on which the early exit fires too soon: the first record
    of Extract B is repeated. *)
Definition repeated_needed : gset string := {[ "n1"; "n2" ]}.
Definition repeated_names : list name_row :=
  [ NameRow (Some "n1") (Some "Alice");
    NameRow (Some "n1") (Some "Alice");
    NameRow (Some "n2") (Some "Bob") ].

(** The store a successful run leaves behind, written out from the movie
    table and the two extracts alone. *)
Definition rebuilt_store (ms : list movie_row)
    (title_principals : list principal_row) (name_basics : list name_row)
    : store :=
  let existing_movies : gset string := list_to_set (mv_tconst <$> ms) in
  let director_movies :=
    extract_director_relationships existing_movies title_principals in
  let director_names :=
    ns_director_names (extract_director_names (dom director_movies) name_basics) in
  Store ms
    (Some (map_to_list director_names))
    (Some (LinkTable (link_rows (filter_named director_names director_movies))
             ["idx_movie_directors_tconst"; "idx_movie_directors_nconst"]))
    (Some (imap (λ i r, (S i, r.2)) (map_to_list director_names))).

(** [director_record existing_movies row tconst nconst]: the record
    passes the two guards of the extraction loop and carries this pair
    of keys. *)
Definition director_record (existing_movies : gset string)
    (row : principal_row) (tconst nconst : string) : Prop :=
  pr_category row = Some "director"
  ∧ pr_tconst row = Some tconst ∧ tconst ≠ EmptyString
  ∧ pr_nconst row = Some nconst ∧ nconst ≠ EmptyString
  ∧ tconst ∈ existing_movies.

(** [tconst] is among the movies of [nconst] in the multimap. *)
Definition linked (director_movies : gmap string (gset string))
    (tconst nconst : string) : Prop :=
  ∃ tconsts, director_movies !! nconst = Some tconsts ∧ tconst ∈ tconsts.

(** ** The copy loop of [compress_database]

    The database file is read in chunks of [chunk_size] bytes and every
    chunk is handed to the gzip writer, until a read returns nothing.
    [read] on a regular file gives the next [chunk_size] bytes, or what
    is left of the file. The loop is [while True]; the model counts
    reads down from a bound, and [None] says that the bound was hit. *)

Definition chunk_size : N := 1048576.
Definition progress_step : N := 52428800.

Record copy_result := CopyResult {
  cr_written : list Byte.byte;
  cr_bytes_written : N;
  cr_progress : list N
}.

Fixpoint copy_chunks (reads : nat) (f_in written : list Byte.byte)
    (bytes_written : N) (progress : list N) : option copy_result :=
  match reads with
  | O => None
  | S reads =>
      let chunk := take (N.to_nat chunk_size) f_in in
      let f_in := drop (N.to_nat chunk_size) f_in in
      match chunk with
      | [] => Some (CopyResult written bytes_written progress)
      | _ :: _ =>
          let written := written ++ chunk in
          let bytes_written := (bytes_written + N.of_nat (length chunk))%N in
          let progress :=
            if (bytes_written mod progress_step =? 0)%N
            then progress ++ [bytes_written] else progress in
          copy_chunks reads f_in written bytes_written progress
      end
  end.

(** ** [main]

    The three paths of [main] are three files that are there or not;
    the exit status is 1 after [sys.exit(1)] and 0 when [main] returns. *)



(** ** Running the monad *)

Lemma run_bind {A B} (m : M A) (k : A → M B) (st : store) :
  (m ≫= k) st =
  match m st with
  | (inr a, st') => k a st'
  | (inl e, st') => (inl e, st')
  end.
Proof. reflexivity. Qed.

Lemma run_bind_ok {A B} (m : M A) (k : A → M B) (st st' : store) (a : A) :
  m st = (inr a, st') → (m ≫= k) st = k a st'.
Proof. intros Hm. by rewrite run_bind, Hm. Qed.

Lemma run_ret {A} (a : A) (st : store) : mret (M := M) a st = (inr a, st).
Proof. reflexivity. Qed.

(** ** Primary keys and batches *)

Section insert_rows.
Context {R K : Type} `{EqDecision K} (key : R → K).

(** Inserting rows whose keys are new and pairwise distinct succeeds and
    appends them. *)
Lemma insert_rows_NoDup (table batch : list R) :
  NoDup (key <$> table ++ batch) →
  insert_rows key table batch = Some (table ++ batch).
Proof.
  revert table. induction batch as [|r batch IH]; intros table Hnd; simpl.
  - by rewrite app_nil_r.
  - case_decide as Hin.
    + exfalso. rewrite fmap_app, fmap_cons in Hnd.
      apply NoDup_app in Hnd as (_ & Hdis & _).
      apply (Hdis _ Hin). left.
    + rewrite IH; rewrite <- app_assoc; done.
Qed.

(** Whatever the batch, a successful insert keeps the key unique. *)
Lemma insert_rows_keeps_key (table batch rows : list R) :
  insert_rows key table batch = Some rows →
  NoDup (key <$> table) → rows = table ++ batch ∧ NoDup (key <$> rows).
Proof.
  revert table. induction batch as [|r batch IH]; intros table; simpl.
  - intros [= <-] Hnd. by rewrite app_nil_r.
  - case_decide as Hin; [done|]. intros Hins Hnd.
    apply IH in Hins as [-> Hnd'].
    + split; [by rewrite <- app_assoc | done].
    + rewrite fmap_app. apply NoDup_app. split_and!; [done| |apply NoDup_singleton].
      intros k Hk [->|[]%elem_of_nil]%elem_of_cons. done.
Qed.
End insert_rows.

Section batched.
Context {R : Type} (executemany : list R → M unit).
Context (T : list R → store) (all : list R).
Hypothesis executemany_ok : ∀ written batch,
  written ++ batch `prefix_of` all →
  executemany batch (T written) = (inr tt, T (written ++ batch)).

Lemma insert_batched_run (items written batch : list R) :
  written ++ batch ++ items = all →
  ∃ written' batch',
    insert_batched executemany items batch (T written) = (inr batch', T written')
    ∧ written' ++ batch' = all.
Proof.
  revert written batch.
  induction items as [|item items IH]; intros written batch Hall; simpl.
  - exists written, batch. by rewrite app_nil_r in Hall.
  - destruct (batch_size <=? _)%N.
    + rewrite (run_bind_ok _ _ _ (T (written ++ batch ++ [item])) tt).
      * unfold commit. rewrite (run_bind_ok _ _ _ _ tt (run_ret _ _)).
        apply IH. rewrite <- Hall, <- !app_assoc. done.
      * apply executemany_ok. exists items.
        rewrite <- Hall, <- !app_assoc. done.
    + apply IH. rewrite <- Hall, <- !app_assoc. done.
Qed.

Lemma insert_remaining_run (written batch : list R) :
  written ++ batch = all →
  insert_remaining executemany batch (T written) = (inr tt, T all).
Proof.
  intros Hall. destruct batch as [|r batch]; simpl.
  - rewrite app_nil_r in Hall. by subst.
  - rewrite (run_bind_ok _ _ _ (T all) tt); [done|].
    rewrite <- Hall. apply executemany_ok. by rewrite Hall.
Qed.

Lemma insert_all_run :
  (insert_batched executemany all [] ≫= insert_remaining executemany) (T [])
  = (inr tt, T all).
Proof.
  destruct (insert_batched_run all [] []) as (written & batch & Hrun & Hall);
    [done|].
  rewrite (run_bind_ok _ _ _ _ _ Hrun). by apply insert_remaining_run.
Qed.
End batched.

(** ** The relationship extractor *)

Lemma add_relationship_insert (director_movies : gmap string (gset string))
    (nconst tconst : string) :
  add_relationship director_movies nconst tconst
  = <[nconst := default ∅ (director_movies !! nconst) ∪ {[tconst]}]> director_movies.
Proof.
  unfold add_relationship. apply map_eq. intros j.
  destruct (director_movies !! nconst) as [ts|] eqn:Hn; simpl;
    rewrite lookup_alter, !lookup_insert; case_decide; subst; try done.
  - by rewrite Hn.
  - by rewrite decide_True.
Qed.

Lemma relationship_step_cases existing_movies director_movies row :
  relationship_step existing_movies director_movies row = director_movies
  ∨ ∃ tconst nconst,
      pr_category row = Some "director"
      ∧ pr_tconst row = Some tconst ∧ tconst ≠ EmptyString
      ∧ pr_nconst row = Some nconst ∧ nconst ≠ EmptyString
      ∧ tconst ∈ existing_movies
      ∧ relationship_step existing_movies director_movies row
        = <[nconst := default ∅ (director_movies !! nconst) ∪ {[tconst]}]> director_movies.
Proof.
  unfold relationship_step.
  destruct (bool_decide (pr_category row = Some "director")) eqn:Hc; simpl; [|by left].
  destruct (pr_tconst row) as [t|]; [|by left].
  destruct (pr_nconst row) as [n|]; [|by left].
  destruct (String.eqb t EmptyString) eqn:Ht; simpl; [by left|].
  destruct (String.eqb n EmptyString) eqn:Hn; simpl; [by left|].
  destruct (bool_decide (t ∈ existing_movies)) eqn:Hin; simpl; [|by left].
  right. exists t, n.
  apply bool_decide_eq_true in Hc, Hin.
  apply String.eqb_neq in Ht, Hn.
  rewrite add_relationship_insert. done.
Qed.

Lemma relationship_step_ok existing_movies director_movies row :
  multimap_ok existing_movies director_movies →
  multimap_ok existing_movies (relationship_step existing_movies director_movies row).
Proof.
  intros Hok.
  destruct (relationship_step_cases existing_movies director_movies row)
    as [->|(t & n & _ & _ & _ & _ & _ & Hin & ->)]; [done|].
  intros n' ts'. destruct (decide (n = n')) as [<-|Hne].
  - rewrite lookup_insert_eq. intros Hts. injection Hts as <-.
    split.
    + intros Hempty. apply (not_elem_of_empty (C := gset string) t).
      rewrite <- Hempty. apply elem_of_union_r. by apply elem_of_singleton.
    + intros x [Hx | ->%elem_of_singleton]%elem_of_union; [|done].
      destruct (director_movies !! n) as [ts|] eqn:Hn; simpl in Hx.
      * apply Hok in Hn as [_ Hsub]. by apply Hsub.
      * by apply not_elem_of_empty in Hx.
  - rewrite lookup_insert_ne by done. apply Hok.
Qed.

Lemma extract_director_relationships_ok existing_movies title_principals :
  multimap_ok existing_movies
    (extract_director_relationships existing_movies title_principals).
Proof.
  unfold extract_director_relationships.
  assert (multimap_ok existing_movies ∅) as Hinit by (by intros n ts; rewrite lookup_empty).
  revert Hinit. generalize (∅ : gmap string (gset string)).
  induction title_principals as [|row rows IH]; intros dm Hok; simpl; [done|].
  apply IH. by apply relationship_step_ok.
Qed.

(** ** The rows written for the multimap *)

Lemma elem_of_link_rows director_movies tconst nconst :
  (tconst, nconst) ∈ link_rows director_movies
  ↔ ∃ tconsts, director_movies !! nconst = Some tconsts ∧ tconst ∈ tconsts.
Proof.
  unfold link_rows. rewrite list_elem_of_bind. split.
  - intros ([n ts] & Hin & Hm). apply elem_of_map_to_list in Hm.
    apply list_elem_of_fmap in Hin as (t & [= -> ->] & Ht).
    apply elem_of_elements in Ht. eauto.
  - intros (ts & Hm & Ht). exists (nconst, ts). split.
    + apply list_elem_of_fmap. exists tconst. split; [done|]. by apply elem_of_elements.
    + by apply elem_of_map_to_list.
Qed.

Lemma NoDup_link_rows director_movies : NoDup (link_rows director_movies).
Proof.
  unfold link_rows. apply NoDup_bind.
  - intros [n1 ts1] [n2 ts2] [t n] H1 H2 Hy1 Hy2.
    apply list_elem_of_fmap in Hy1 as (t1 & [= -> ->] & _).
    apply list_elem_of_fmap in Hy2 as (t2 & [= _ ->] & _).
    apply elem_of_map_to_list in H1, H2. congruence.
  - intros [n ts] _. apply NoDup_fmap_2; [|apply NoDup_elements].
    by intros t1 t2 [= ->].
  - apply NoDup_map_to_list.
Qed.

(** ** The methods, run on a store *)

Lemma drop_existing_tables_run (st : store) :
  drop_existing_tables st = (inr tt, Store (movies st) None None None).
Proof. reflexivity. Qed.

Lemma create_tables_run (ms : list movie_row) :
  create_tables (Store ms None None None)
  = (inr tt, Store ms (Some []) (Some (LinkTable [] [])) None).
Proof. reflexivity. Qed.

Lemma NoDup_fmap_prefix {A B} (f : A → B) (l all : list A) :
  l `prefix_of` all → NoDup (f <$> all) → NoDup (f <$> l).
Proof. intros [k ->]. rewrite fmap_app. by intros [? _]%NoDup_app. Qed.

Lemma insert_directors_run ms links fts (director_names : gmap string string) :
  insert_directors director_names (Store ms (Some []) links fts)
  = (inr tt, Store ms (Some (map_to_list director_names)) links fts).
Proof.
  unfold insert_directors.
  apply (insert_all_run executemany_directors
           (λ rows, Store ms (Some rows) links fts)).
  intros written batch Hpre. unfold executemany_directors.
  rewrite run_bind. simpl. rewrite insert_rows_NoDup; [done|].
  eapply NoDup_fmap_prefix; [done|]. apply NoDup_fst_map_to_list.
Qed.

Lemma insert_movie_directors_run ms ds idx fts
    (director_movies : gmap string (gset string)) :
  insert_movie_directors director_movies (Store ms ds (Some (LinkTable [] idx)) fts)
  = (inr tt, Store ms ds (Some (LinkTable (link_rows director_movies) idx)) fts).
Proof.
  unfold insert_movie_directors.
  apply (insert_all_run executemany_movie_directors
           (λ rows, Store ms ds (Some (LinkTable rows idx)) fts)).
  intros written batch Hpre. unfold executemany_movie_directors.
  rewrite run_bind. simpl. rewrite insert_rows_NoDup; [done|].
  eapply NoDup_fmap_prefix; [done|].
  rewrite list_fmap_id. apply NoDup_link_rows.
Qed.

Lemma fst_fts_rows (rows : list director_row) :
  (imap (λ i r, (S i, r.2)) rows).*1 = seq 1 (length rows).
Proof.
  rewrite fmap_imap. rewrite <- fmap_S_seq, <- imap_seq_0.
  apply imap_ext. done.
Qed.

Lemma create_fts_index_run ms rows links :
  create_fts_index (Store ms (Some rows) links None)
  = (inr tt, Store ms (Some rows) links (Some (imap (λ i r, (S i, r.2)) rows))).
Proof.
  unfold create_fts_index, populate_directors_fts.
  repeat (rewrite run_bind; simpl). rewrite insert_rows_NoDup; [done|].
  simpl. rewrite fst_fts_rows. apply NoDup_seq.
Qed.

Lemma create_indexes_run ms ds rows fts :
  create_indexes (Store ms ds (Some (LinkTable rows [])) fts)
  = (inr tt, Store ms ds
       (Some (LinkTable rows
                ["idx_movie_directors_tconst"; "idx_movie_directors_nconst"])) fts).
Proof. reflexivity. Qed.

(** A run of [build] never fails, and its result does not depend on the
    derived tables it finds. *)
Lemma build_run title_principals name_basics (st : store) :
  build title_principals name_basics st
  = (inr tt, rebuilt_store (movies st) title_principals name_basics).
Proof.
  unfold build, connect.
  rewrite (run_bind_ok _ _ _ _ _ (run_ret _ _)).
  rewrite (run_bind_ok _ _ _ _ _ (drop_existing_tables_run _)).
  rewrite (run_bind_ok _ _ _ _ _ (create_tables_run _)).
  rewrite (run_bind_ok get_existing_movie_ids _ _ _ _ eq_refl).
  cbn [movies].
  rewrite (run_bind_ok _ _ _ _ _ (insert_directors_run _ _ _ _)).
  rewrite (run_bind_ok _ _ _ _ _ (insert_movie_directors_run _ _ _ _ _)).
  rewrite (run_bind_ok _ _ _ _ _ (create_fts_index_run _ _ _)).
  rewrite (run_bind_ok _ _ _ _ _ (create_indexes_run _ _ _ _)).
  reflexivity.
Qed.

(** ** The name resolver *)

Lemma elem_of_dom_record_name needed (m : gmap string string) row n :
  n ∈ dom (record_name needed m row)
  ↔ n ∈ dom m
    ∨ (n ∈ needed ∧ ∃ v, row = NameRow (Some n) (Some v) ∧ valid_name (Some v) = true).
Proof.
  destruct row as [[k|] [v|]]; unfold record_name, name_hit; simpl.
  - destruct (bool_decide (k ∈ needed)) eqn:Hk; simpl.
    + apply bool_decide_eq_true in Hk.
      destruct (valid_name (Some v)) eqn:Hv.
      * rewrite dom_insert_L, elem_of_union, elem_of_singleton. split.
        -- intros [->|?]; [right|by left]. eauto.
        -- intros [?|(_ & v' & [= -> _] & _)]; [by right|by left].
      * split; [by left|]. intros [?|(_ & v' & [= _ <-] & Hv')]; [done|congruence].
    + apply bool_decide_eq_false in Hk.
      split; [by left|]. intros [?|(Hn & v' & [= ->] & _)]; done.
  - split; [by left|]. intros [?|(_ & v' & [=] & _)]; done.
  - split; [by left|]. intros [?|(_ & v' & [=] & _)]; done.
  - split; [by left|]. intros [?|(_ & v' & [=] & _)]; done.
Qed.

Lemma elem_of_dom_foldl_record_name needed rows (m : gmap string string) n :
  n ∈ dom (foldl (record_name needed) m rows)
  ↔ n ∈ dom m
    ∨ (n ∈ needed
       ∧ ∃ v, NameRow (Some n) (Some v) ∈ rows ∧ valid_name (Some v) = true).
Proof.
  revert m. induction rows as [|row rows IH]; intros m; simpl.
  - split; [by left|]. intros [?|(_ & v & []%elem_of_nil & _)]. done.
  - rewrite IH, elem_of_dom_record_name. split.
    + intros [[?|(Hn & v & -> & Hv)]|(Hn & v & Hin & Hv)]; [by left|right..].
      * split; [done|]. exists v. split; [left|done].
      * split; [done|]. exists v. split; [by right|done].
    + intros [?|(Hn & v & [<-|Hin]%elem_of_cons & Hv)].
      * by left; left.
      * left; right. eauto.
      * right. eauto.
Qed.

(** One turn of the loop, in terms of [record_name] and [name_hit]. *)
Lemma scan_names_cons needed row rows (m : gmap string string) (rp nf : nat) :
  scan_names needed (row :: rows) m rp nf
  = let m' := record_name needed m row in
    let nf' := if name_hit needed row then S nf else nf in
    if match nr_nconst row with
       | Some n => bool_decide (n ∈ needed)
       | None => false
       end && bool_decide (nf' = size needed)
    then NameScan m' (S rp) nf' true
    else scan_names needed rows m' (S rp) nf'.
Proof.
  destruct row as [[n|] [v|]]; simpl; unfold record_name, name_hit; simpl;
    try done.
  - destruct (bool_decide (n ∈ needed)); simpl; [|done].
    destruct (valid_name (Some v)); done.
  - destruct (bool_decide (n ∈ needed)); done.
Qed.

(** The scan returns what has been accumulated over the records it has
    read; it has read them all unless it stopped, and it stops only when
    the counter has reached the size of the needed set. The counter is
    the number of records that hit, not the number of keys resolved. *)
Lemma scan_names_prefix needed rows (m : gmap string string) (rp nf : nat) :
  let r := scan_names needed rows m rp nf in
  ∃ k, k ≤ length rows
    ∧ ns_rows_processed r = rp + k
    ∧ ns_director_names r = foldl (record_name needed) m (take k rows)
    ∧ ns_names_found r = nf + length (List.filter (name_hit needed) (take k rows))
    ∧ (ns_stopped r = false → k = length rows)
    ∧ (ns_stopped r = true → ns_names_found r = size needed).
Proof.
  revert m rp nf. induction rows as [|row rows IH]; intros m rp nf.
  - exists 0. simpl. split_and!; try done; lia.
  - rewrite scan_names_cons. cbv zeta.
    destruct (_ && _) eqn:Hexit.
    + apply andb_true_iff in Hexit as [_ Hsz%bool_decide_eq_true].
      exists 1. simpl. split_and!; [lia|lia|done| |done|done].
      destruct (name_hit needed row); simpl; lia.
    + destruct (IH (record_name needed m row) (S rp)
                  (if name_hit needed row then S nf else nf))
        as (k & Hk & Hrp & Hnames & Hnf & Hstop & Hfound).
      exists (S k). simpl.
      split_and!; [lia|lia|done| |intros ?; f_equal; auto|done].
      rewrite Hnf. destruct (name_hit needed row); simpl; lia.
Qed.

Lemma extract_director_names_dom needed name_basics :
  dom (ns_director_names (extract_director_names needed name_basics)) ⊆ needed.
Proof.
  destruct (scan_names_prefix needed name_basics ∅ 0 0)
    as (k & _ & _ & Hnames & _).
  unfold extract_director_names. rewrite Hnames.
  intros n [Hn|[Hn _]]%elem_of_dom_foldl_record_name; [|done].
  by rewrite dom_empty_L in Hn.
Qed.

(** ** The worked example *)

(** C1. On the example of the design (movies t1 and t2; three records in
    Extract A; n1 named Alice and n2 carrying the sentinel in Extract B)
    the extraction gives both directors, the resolver names n1 only, the
    filter keeps n1 only, and the run ends with exactly the director row
    (n1, Alice) and exactly the link row (t1, n1). *)
Theorem worked_example :
  let existing_movies : gset string := {[ "t1"; "t2" ]} in
  let director_movies :=
    extract_director_relationships existing_movies example_principals in
  let director_names :=
    ns_director_names (extract_director_names (dom director_movies) example_names) in
  get_existing_movie_ids example_store = (inr existing_movies, example_store)
  ∧ director_movies = {[ "n1" := {[ "t1" ]}; "n2" := {[ "t2" ]} ]}
  ∧ director_names = {[ "n1" := "Alice" ]}
  ∧ filter_named director_names director_movies = {[ "n1" := {[ "t1" ]} ]}
  ∧ ∃ st, build example_principals example_names example_store = (inr tt, st)
      ∧ directors st = Some [("n1", "Alice")]
      ∧ lt_rows <$> movie_directors st = Some [("t1", "n1")].
Proof.
  cbv zeta. split_and!.
  - vm_compute. reflexivity.
  - vm_compute. reflexivity.
  - vm_compute. reflexivity.
  - vm_compute. reflexivity.
  - eexists. split_and!; [vm_compute; reflexivity|reflexivity..].
Qed.

(** ** Invariants of the rows a run writes *)

Lemma filter_named_lookup director_names director_movies nconst tconsts :
  filter_named director_names director_movies !! nconst = Some tconsts
  ↔ director_movies !! nconst = Some tconsts ∧ nconst ∈ dom director_names.
Proof.
  unfold filter_named. rewrite map_lookup_filter_Some, elem_of_dom. done.
Qed.

(** C2. Every link row a run writes carries a movie key of the key set
    that the key loader reads from the store the run started from. *)
Theorem link_movie_key_was_loaded title_principals name_basics (st : store)
    (tconst nconst : string) :
  (tconst, nconst)
    ∈ movie_director_rows (build title_principals name_basics st).2 →
  ∃ existing_movies,
    get_existing_movie_ids st = (inr existing_movies, st)
    ∧ tconst ∈ existing_movies.
Proof.
  rewrite build_run. unfold movie_director_rows, rebuilt_store. simpl.
  intros (tconsts & [Hm _]%filter_named_lookup & Ht)%elem_of_link_rows.
  eexists. split; [reflexivity|].
  apply extract_director_relationships_ok in Hm as [_ Hsub]. by apply Hsub.
Qed.

Lemma link_movie_key_was_loaded_witness :
  ∃ existing_movies,
    get_existing_movie_ids example_store = (inr existing_movies, example_store)
    ∧ "t1" ∈ existing_movies.
Proof.
  apply (link_movie_key_was_loaded example_principals example_names
           example_store "t1" "n1").
  vm_compute. left.
Defined.

(** C3. Every link row a run writes has a director row with the same
    person identifier among the director rows the same run writes. *)
Theorem link_director_has_row title_principals name_basics (st : store)
    (tconst nconst : string) :
  (tconst, nconst)
    ∈ movie_director_rows (build title_principals name_basics st).2 →
  ∃ name,
    (nconst, name) ∈ director_rows (build title_principals name_basics st).2.
Proof.
  rewrite build_run. unfold movie_director_rows, director_rows, rebuilt_store.
  simpl.
  intros (tconsts & [_ Hn]%filter_named_lookup & _)%elem_of_link_rows.
  apply elem_of_dom in Hn as [name Hname].
  exists name. by apply elem_of_map_to_list.
Qed.

Lemma link_director_has_row_witness :
  ∃ name,
    ("n1", name)
      ∈ director_rows (build example_principals example_names example_store).2.
Proof.
  apply (link_director_has_row example_principals example_names
           example_store "t1" "n1").
  vm_compute. left.
Defined.

(** A record seen twice changes the multimap once. *)
Lemma relationship_step_twice existing_movies director_movies row :
  relationship_step existing_movies
    (relationship_step existing_movies director_movies row) row
  = relationship_step existing_movies director_movies row.
Proof.
  destruct (relationship_step_cases existing_movies director_movies row)
    as [Hsame|(t & n & _ & Ht & _ & Hn & _ & _ & Hstep)].
  - by rewrite !Hsame.
  - rewrite Hstep.
    destruct (relationship_step_cases existing_movies
                (<[n := default ∅ (director_movies !! n) ∪ {[t]}]> director_movies) row)
      as [Hsame|(t' & n' & _ & Ht' & _ & Hn' & _ & _ & Hstep')]; [done|].
    rewrite Hstep'.
    assert (t' = t) as -> by congruence. assert (n' = n) as -> by congruence.
    rewrite lookup_insert_eq, insert_insert_eq. simpl. f_equal.
    apply set_eq. intros x. rewrite !elem_of_union. tauto.
Qed.

(** C4. A run never fails on the composite primary key of the link table
    and the link rows it writes are pairwise distinct, whatever the two
    extracts hold; a record of Extract A that comes again right after
    itself adds nothing to the multimap. *)
Theorem link_rows_distinct title_principals name_basics (st : store) :
  (build title_principals name_basics st).1 = inr tt
  ∧ NoDup (movie_director_rows (build title_principals name_basics st).2)
  ∧ ∀ row dm,
      relationship_step (list_to_set (mv_tconst <$> movies st))
        (relationship_step (list_to_set (mv_tconst <$> movies st)) dm row) row
      = relationship_step (list_to_set (mv_tconst <$> movies st)) dm row.
Proof.
  rewrite build_run. split_and!; [done| |].
  - unfold movie_director_rows, rebuilt_store. simpl. apply NoDup_link_rows.
  - intros row dm. apply relationship_step_twice.
Qed.

(** ** The early exit of the resolver *)

(** On records with pairwise distinct keys, the records that hit are as
    many as the keys that get a name. *)
Lemma hits_are_new_keys needed rows (m : gmap string string) :
  NoDup (omap nr_nconst rows) →
  (∀ n, n ∈ omap nr_nconst rows → m !! n = None) →
  size (foldl (record_name needed) m rows)
  = size m + length (List.filter (name_hit needed) rows).
Proof.
  revert m. induction rows as [|row rows IH]; intros m Hnd Hnew; simpl.
  - lia.
  - unfold record_name at 2. simpl in Hnd, Hnew.
    destruct (nr_nconst row) as [n|] eqn:Hn; simpl in *.
    + apply NoDup_cons in Hnd as [Hnot Hnd].
      destruct (nr_primaryName row) as [v|] eqn:Hv.
      * destruct (name_hit needed row) eqn:Hhit; simpl.
        -- rewrite IH; [|done|].
           ++ rewrite map_size_insert_None; [lia|]. apply Hnew. left.
           ++ intros n' Hn'. rewrite lookup_insert_ne by (intros ->; done).
              apply Hnew. by right.
        -- apply IH; [done|]. intros n' Hn'. apply Hnew. by right.
      * assert (name_hit needed row = false) as ->.
        { unfold name_hit. rewrite Hv. apply andb_false_r. }
        apply IH; [done|]. intros n' Hn'. apply Hnew. by right.
    + assert (name_hit needed row = false) as ->.
      { unfold name_hit. by rewrite Hn. }
      destruct (nr_primaryName row); by apply IH.
Qed.

(** So the counter of the scan is the number of distinct keys resolved
    as long as no key of Extract B comes twice. *)
Lemma names_found_distinct_keys needed name_basics :
  NoDup (omap nr_nconst name_basics) →
  ns_names_found (extract_director_names needed name_basics)
  = size (dom (ns_director_names (extract_director_names needed name_basics))).
Proof.
  intros Hnd.
  destruct (scan_names_prefix needed name_basics ∅ 0 0)
    as (k & _ & _ & Hnames & Hnf & _).
  unfold extract_director_names. rewrite Hnf, Hnames, size_dom.
  rewrite hits_are_new_keys.
  - by rewrite map_size_empty.
  - rewrite <- (take_drop k name_basics), omap_app in Hnd.
    by apply NoDup_app in Hnd as [? _].
  - intros n _. apply lookup_empty.
Qed.

(** With nothing needed the test of the early exit is never reached. *)
Lemma scan_reads_all_when_nothing_needed rows (m : gmap string string) rp nf :
  scan_names ∅ rows m rp nf = NameScan m (rp + length rows) nf false.
Proof.
  revert rp. induction rows as [|row rows IH]; intros rp; simpl.
  - by rewrite Nat.add_0_r.
  - destruct (nr_nconst row) as [n|]; simpl; rewrite ?bool_decide_eq_false_2
      by apply not_elem_of_empty; rewrite IH; f_equal; lia.
Qed.

(** C5. With needed keys n1 and n2 and an Extract B whose first record
    (n1, Alice) comes twice before (n2, Bob), the scan stops after the
    second record: the counter is 2, the size of the needed set, while one
    key only has a name. The record of n2 is never read, although the
    whole extract holds a name for each needed key. *)
Theorem early_exit_counts_records_not_keys :
  let r := extract_director_names repeated_needed repeated_names in
  size repeated_needed = 2
  ∧ ns_stopped r = true
  ∧ ns_rows_processed r = 2
  ∧ ns_names_found r = 2
  ∧ ns_director_names r = {[ "n1" := "Alice" ]}
  ∧ size (dom (ns_director_names r)) = 1
  ∧ names_accumulated repeated_needed repeated_names
    = {[ "n1" := "Alice"; "n2" := "Bob" ]}.
Proof. cbv zeta. split_and!; vm_compute; reflexivity. Qed.

(** C6. When the scan of Extract B ends without the early exit, every
    record has been read and the resolver returns the mapping
    accumulated over the whole extract: a needed key has a name in it
    exactly when some record gives it a name that is present and not the
    sentinel. Nothing is raised: for any Extract A and any store the run
    with this Extract B ends normally, and the filter drops exactly the
    multimap entries left without a name. *)
Theorem resolver_returns_partial_mapping needed_nconsts name_basics :
  let r := extract_director_names needed_nconsts name_basics in
  ns_stopped r = false →
  ns_rows_processed r = length name_basics
  ∧ ns_director_names r = names_accumulated needed_nconsts name_basics
  ∧ (∀ nconst, nconst ∈ dom (ns_director_names r)
       ↔ nconst ∈ needed_nconsts
         ∧ ∃ name, NameRow (Some nconst) (Some name) ∈ name_basics
             ∧ valid_name (Some name) = true)
  ∧ (∀ title_principals st,
       (build title_principals name_basics st).1 = inr tt)
  ∧ (∀ director_movies : gmap string (gset string),
       dom (filter_named (ns_director_names r) director_movies)
       = dom director_movies ∩ dom (ns_director_names r)).
Proof.
  intros r Hstop. subst r.
  destruct (scan_names_prefix needed_nconsts name_basics ∅ 0 0)
    as (k & _ & Hrp & Hnames & _ & Hall & _).
  unfold extract_director_names in *.
  specialize (Hall Hstop). subst k. rewrite firstn_all in Hnames.
  split_and!.
  - by rewrite Hrp.
  - by rewrite Hnames.
  - intros n. rewrite Hnames, elem_of_dom_foldl_record_name, dom_empty_L.
    split; [intros [[]%not_elem_of_empty|]; done|by right].
  - intros A st. by rewrite build_run.
  - intros dm. apply set_eq. intros n.
    rewrite elem_of_intersection, !elem_of_dom. split.
    + intros [ts [Hts Hn]%filter_named_lookup]. by rewrite Hts, <- elem_of_dom.
    + intros [[ts Hts] Hn]. exists ts. apply filter_named_lookup.
      by rewrite elem_of_dom.
Qed.

Lemma resolver_returns_partial_mapping_witness :
  ns_rows_processed (extract_director_names {[ "n1"; "n2" ]} example_names)
  = length example_names.
Proof.
  apply (resolver_returns_partial_mapping {[ "n1"; "n2" ]} example_names).
  vm_compute. reflexivity.
Defined.

(** ** One record of Extract A *)

(** C7. A record whose role is director, whose two keys are present and
    non-empty and whose movie key is in the loaded set adds its movie
    key to the entry of its director key (a new entry when the key had
    none); any other record leaves the multimap as it was. *)
Theorem relationship_step_spec existing_movies
    (director_movies : gmap string (gset string)) (row : principal_row) :
  (∀ tconst nconst,
     pr_category row = Some "director" →
     pr_tconst row = Some tconst → tconst ≠ EmptyString →
     pr_nconst row = Some nconst → nconst ≠ EmptyString →
     tconst ∈ existing_movies →
     relationship_step existing_movies director_movies row
     = <[nconst := default ∅ (director_movies !! nconst) ∪ {[tconst]}]> director_movies)
  ∧ (¬ (∃ tconst nconst,
          pr_category row = Some "director"
          ∧ pr_tconst row = Some tconst ∧ tconst ≠ EmptyString
          ∧ pr_nconst row = Some nconst ∧ nconst ≠ EmptyString
          ∧ tconst ∈ existing_movies) →
     relationship_step existing_movies director_movies row = director_movies).
Proof.
  split.
  - intros t n Hc Ht Ht0 Hn Hn0 Hin. unfold relationship_step.
    rewrite Hc, Ht, Hn. simpl.
    apply String.eqb_neq in Ht0, Hn0. rewrite Ht0, Hn0. simpl.
    rewrite bool_decide_eq_true_2 by done. simpl.
    apply add_relationship_insert.
  - intros Hno.
    destruct (relationship_step_cases existing_movies director_movies row)
      as [Hsame|(t & n & Hc & Ht & Ht0 & Hn & Hn0 & Hin & _)]; [done|].
    exfalso. apply Hno. eauto 10.
Qed.

Lemma relationship_step_spec_witness :
  relationship_step {[ "t1"; "t2" ]} ∅
    (PrincipalRow (Some "t1") (Some "n1") (Some "director"))
  = <[ "n1" := default ∅ ((∅ : gmap string (gset string)) !! "n1") ∪ {[ "t1" ]} ]> ∅
  ∧ relationship_step {[ "t1"; "t2" ]} ∅
      (PrincipalRow (Some "t1") (Some "n1") (Some "actor"))
    = ∅.
Proof.
  split.
  - apply (proj1 (relationship_step_spec {[ "t1"; "t2" ]} ∅
                    (PrincipalRow (Some "t1") (Some "n1") (Some "director"))));
      [reflexivity|reflexivity|discriminate|reflexivity|discriminate|].
    vm_compute. reflexivity.
  - apply (proj2 (relationship_step_spec {[ "t1"; "t2" ]} ∅
                    (PrincipalRow (Some "t1") (Some "n1") (Some "actor")))).
    intros (t & n & Hc & _). discriminate Hc.
Defined.

(** ** Reruns *)

(** C8. Two runs in a row on the same extracts: both end normally, the
    first leaves the movie table as it was (so the second starts from
    the same inputs), and the director rows and the link rows after the
    second run are, as sets, those after the first. *)
Theorem rerun_same_row_sets title_principals name_basics (st : store) :
  let first := build title_principals name_basics st in
  let second := build title_principals name_basics first.2 in
  first.1 = inr tt
  ∧ second.1 = inr tt
  ∧ movies first.2 = movies st
  ∧ director_set second.2 = director_set first.2
  ∧ link_set second.2 = link_set first.2.
Proof.
  cbv zeta. rewrite !build_run. simpl. done.
Qed.

(** ** The movie table is read only *)

Section keeps_movies.
Lemma keeps_movies_ret {A} (a : A) : keeps_movies (mret a).
Proof. by intros st. Qed.

Lemma keeps_movies_raise {A} (e : db_error) : keeps_movies (raise (A := A) e).
Proof. by intros st. Qed.

Lemma keeps_movies_bind {A B} (m : M A) (k : A → M B) :
  keeps_movies m → (∀ a, keeps_movies (k a)) → keeps_movies (m ≫= k).
Proof.
  intros Hm Hk st. rewrite run_bind. specialize (Hm st).
  destruct (m st) as [[e|a] st']; simpl in *; [done|].
  by rewrite Hk.
Qed.

Lemma keeps_movies_get_put {A} (f : store → M A) :
  (∀ st, movies (f st st).2 = movies st) →
  keeps_movies (get_store ≫= f).
Proof. intros Hf st. rewrite run_bind. simpl. apply Hf. Qed.

Lemma keeps_movies_drop_existing_tables : keeps_movies drop_existing_tables.
Proof. by intros st. Qed.

Lemma keeps_movies_create_tables : keeps_movies create_tables.
Proof.
  apply keeps_movies_bind; [|intros _; apply keeps_movies_bind;
                              [|intros _; apply keeps_movies_ret]];
    apply keeps_movies_get_put; intros st.
  - by destruct (directors st).
  - by destruct (movie_directors st).
Qed.

Lemma keeps_movies_get_existing_movie_ids : keeps_movies get_existing_movie_ids.
Proof. by intros st. Qed.

Lemma keeps_movies_executemany_directors batch :
  keeps_movies (executemany_directors batch).
Proof.
  apply keeps_movies_get_put. intros st.
  destruct (directors st) as [rows|]; [|done].
  by destruct (insert_rows fst rows batch).
Qed.

Lemma keeps_movies_executemany_movie_directors batch :
  keeps_movies (executemany_movie_directors batch).
Proof.
  apply keeps_movies_get_put. intros st.
  destruct (movie_directors st) as [t|]; [|done].
  by destruct (insert_rows id (lt_rows t) batch).
Qed.

Lemma keeps_movies_insert_batched {R} (executemany : list R → M unit) items batch :
  (∀ b, keeps_movies (executemany b)) →
  keeps_movies (insert_batched executemany items batch).
Proof.
  intros Hexec. revert batch.
  induction items as [|item items IH]; intros batch; simpl.
  - apply keeps_movies_ret.
  - destruct (batch_size <=? _)%N; [|apply IH].
    apply keeps_movies_bind; [apply Hexec|intros _].
    apply keeps_movies_bind; [apply keeps_movies_ret|intros _]. apply IH.
Qed.

Lemma keeps_movies_insert_remaining {R} (executemany : list R → M unit) batch :
  (∀ b, keeps_movies (executemany b)) →
  keeps_movies (insert_remaining executemany batch).
Proof.
  intros Hexec. destruct batch; simpl; [apply keeps_movies_ret|].
  apply keeps_movies_bind; [apply Hexec|intros _; apply keeps_movies_ret].
Qed.

Lemma keeps_movies_insert_directors director_names :
  keeps_movies (insert_directors director_names).
Proof.
  apply keeps_movies_bind; [|intros batch].
  - apply keeps_movies_insert_batched, keeps_movies_executemany_directors.
  - apply keeps_movies_insert_remaining, keeps_movies_executemany_directors.
Qed.

Lemma keeps_movies_insert_movie_directors director_movies :
  keeps_movies (insert_movie_directors director_movies).
Proof.
  apply keeps_movies_bind; [|intros batch].
  - apply keeps_movies_insert_batched, keeps_movies_executemany_movie_directors.
  - apply keeps_movies_insert_remaining, keeps_movies_executemany_movie_directors.
Qed.

Lemma keeps_movies_create_fts_index : keeps_movies create_fts_index.
Proof.
  apply keeps_movies_bind; [|intros _; apply keeps_movies_bind;
                              [|intros _; apply keeps_movies_ret]];
    apply keeps_movies_get_put; intros st.
  - by destruct (directors_fts st).
  - destruct (directors st) as [rows|]; [|done].
    destruct (directors_fts st) as [fts|]; [|done].
    by destruct (insert_rows _ _ _).
Qed.

Lemma keeps_movies_create_indexes : keeps_movies create_indexes.
Proof.
  apply keeps_movies_bind; [|intros _; apply keeps_movies_bind;
                              [|intros _; apply keeps_movies_ret]];
    apply keeps_movies_get_put; intros st;
    (destruct (movie_directors st) as [t|]; [|done]); by case_decide.
Qed.

Lemma keeps_movies_print_stats : keeps_movies print_stats.
Proof.
  apply keeps_movies_get_put. intros st.
  destruct (directors st); [|done]. by destruct (movie_directors st).
Qed.
End keeps_movies.

Ltac keeps_movies_step :=
  first
    [ apply keeps_movies_drop_existing_tables
    | apply keeps_movies_create_tables
    | apply keeps_movies_get_existing_movie_ids
    | apply keeps_movies_insert_directors
    | apply keeps_movies_insert_movie_directors
    | apply keeps_movies_create_fts_index
    | apply keeps_movies_create_indexes
    | apply keeps_movies_print_stats
    | apply keeps_movies_ret
    | match goal with
      | |- keeps_movies (?m ≫= ?k) => apply (keeps_movies_bind m k); [|intros ?]
      end ].

(** C9. Every method of a run, and so the run itself, leaves the rows
    of the movie table as they were, on any store and whether or not the
    method raises; the key loader returns the projection of the table on
    its key column and the store it was given. *)
Theorem movies_table_untouched title_principals name_basics :
  keeps_movies (build title_principals name_basics)
  ∧ keeps_movies drop_existing_tables
  ∧ keeps_movies create_tables
  ∧ (∀ st, get_existing_movie_ids st
           = (inr (list_to_set (mv_tconst <$> movies st)), st))
  ∧ (∀ director_names, keeps_movies (insert_directors director_names))
  ∧ (∀ director_movies, keeps_movies (insert_movie_directors director_movies))
  ∧ keeps_movies create_fts_index
  ∧ keeps_movies create_indexes
  ∧ keeps_movies vacuum_database
  ∧ keeps_movies print_stats.
Proof.
  split_and!; try done; try keeps_movies_step.
  unfold build. repeat keeps_movies_step.
Qed.

(** ** Directors and links name the same people *)

(** C10. After a run the person identifiers of the director rows are
    those of the link rows: every director written has at least one
    link, and every link names a director written. *)
Theorem directors_are_the_linked_people title_principals name_basics (st : store) :
  let st' := (build title_principals name_basics st).2 in
  (list_to_set (director_rows st').*1 : gset string)
  = list_to_set (movie_director_rows st').*2.
Proof.
  cbv zeta. rewrite build_run. unfold director_rows, movie_director_rows, rebuilt_store.
  simpl.
  set (dm := extract_director_relationships _ _).
  set (names := ns_director_names _).
  apply set_eq. intros n.
  rewrite !elem_of_list_to_set, !list_elem_of_fmap. split.
  - intros ([n' name] & -> & Hname%elem_of_map_to_list). simpl.
    assert (n' ∈ dom dm) as [ts Hts]%elem_of_dom.
    { apply (extract_director_names_dom (dom dm) name_basics).
      apply elem_of_dom. by exists name. }
    destruct (extract_director_relationships_ok _ _ _ _ Hts) as [Hne _].
    apply set_choose_L in Hne as [t Ht].
    exists (t, n'). split; [done|].
    apply elem_of_link_rows. exists ts. split; [|done].
    apply filter_named_lookup. split; [done|].
    apply elem_of_dom. by exists name.
  - intros ([t n'] & -> & (ts & [_ Hn]%filter_named_lookup & _)%elem_of_link_rows).
    simpl. apply elem_of_dom in Hn as [name Hname].
    exists (n', name). split; [done|]. by apply elem_of_map_to_list.
Qed.

(** ** The extraction as a semi-join *)

Lemma relationship_step_match existing_movies director_movies row tconst nconst :
  director_record existing_movies row tconst nconst →
  relationship_step existing_movies director_movies row
  = <[nconst := default ∅ (director_movies !! nconst) ∪ {[tconst]}]> director_movies.
Proof.
  intros (Hc & Ht & Ht0 & Hn & Hn0 & Hin). unfold relationship_step.
  rewrite Hc, Ht, Hn. simpl.
  apply String.eqb_neq in Ht0, Hn0. rewrite Ht0, Hn0. simpl.
  rewrite bool_decide_eq_true_2 by done. simpl.
  apply add_relationship_insert.
Qed.

Lemma linked_insert_union (director_movies : gmap string (gset string))
    (t n t' n' : string) :
  linked (<[n' := default ∅ (director_movies !! n') ∪ {[t']}]> director_movies) t n
  ↔ linked director_movies t n ∨ (t = t' ∧ n = n').
Proof.
  unfold linked. destruct (decide (n' = n)) as [->|Hne].
  - rewrite lookup_insert_eq. split.
    + intros (ts & [= <-] & [Hold| ->%elem_of_singleton]%elem_of_union); [|by right].
      left. destruct (director_movies !! n) as [ts|]; simpl in Hold; [by eauto|].
      by apply not_elem_of_empty in Hold.
    + intros [(ts & Hts & Ht)|[-> _]]; eexists; (split; [done|]).
      * rewrite Hts. simpl. by apply elem_of_union_l.
      * apply elem_of_union_r. by apply elem_of_singleton.
  - rewrite lookup_insert_ne by done. split; [by left|].
    intros [?|[_ ->]]; done.
Qed.

Lemma linked_relationship_step existing_movies director_movies row t n :
  linked (relationship_step existing_movies director_movies row) t n
  ↔ linked director_movies t n ∨ director_record existing_movies row t n.
Proof.
  split.
  - destruct (relationship_step_cases existing_movies director_movies row)
      as [->|(t' & n' & Hc & Ht & Ht0 & Hn & Hn0 & Hin & ->)]; [by left|].
    intros [?|[-> ->]]%linked_insert_union; [by left|]. by right.
  - intros [Hold|Hrec].
    + destruct (relationship_step_cases existing_movies director_movies row)
        as [->|(t' & n' & _ & _ & _ & _ & _ & _ & ->)]; [done|].
      apply linked_insert_union. by left.
    + rewrite (relationship_step_match _ _ _ _ _ Hrec).
      apply linked_insert_union. by right.
Qed.

Lemma linked_foldl_relationship_step existing_movies rows director_movies t n :
  linked (foldl (relationship_step existing_movies) director_movies rows) t n
  ↔ linked director_movies t n
    ∨ ∃ row, row ∈ rows ∧ director_record existing_movies row t n.
Proof.
  revert director_movies. induction rows as [|row rows IH]; intros dm; simpl.
  - split; [by left|]. by intros [?|(row & []%elem_of_nil & _)].
  - rewrite IH, linked_relationship_step. split.
    + intros [[?|Hrec]|(row' & Hin & Hrec)]; [by left|right..].
      * exists row. split; [left|done].
      * exists row'. split; [by right|done].
    + intros [?|(row' & [->|Hin]%elem_of_cons & Hrec)].
      * by left; left.
      * by left; right.
      * right. eauto.
Qed.

(** X1. The multimap is the semi-join of Extract A with the key set: a
    movie is among the movies of a director exactly when some record of
    the extract has the role director, carries these two keys, both
    non-empty, and its movie key is in the key set. *)
Theorem extract_director_relationships_semi_join existing_movies
    title_principals (tconst nconst : string) :
  linked (extract_director_relationships existing_movies title_principals)
    tconst nconst
  ↔ ∃ row, row ∈ title_principals
      ∧ pr_category row = Some "director"
      ∧ pr_tconst row = Some tconst ∧ tconst ≠ EmptyString
      ∧ pr_nconst row = Some nconst ∧ nconst ≠ EmptyString
      ∧ tconst ∈ existing_movies.
Proof.
  unfold extract_director_relationships.
  rewrite linked_foldl_relationship_step. split.
  - intros [(ts & Hts & _)|Hrow]; [by rewrite lookup_empty in Hts|done].
  - by right.
Qed.

Lemma extract_director_relationships_semi_join_witness :
  linked (extract_director_relationships {[ "t1"; "t2" ]} example_principals)
    "t2" "n2".
Proof.
  apply (proj2 (extract_director_relationships_semi_join {[ "t1"; "t2" ]}
                  example_principals "t2" "n2")).
  exists (PrincipalRow (Some "t2") (Some "n2") (Some "director")).
  split_and!; [right; right; left|reflexivity|reflexivity|discriminate
              |reflexivity|discriminate|].
  vm_compute. reflexivity.
Defined.





(** ** What the resolver returns *)

Lemma valid_name_Some (v : string) :
  valid_name (Some v) = true ↔ v ≠ EmptyString ∧ v ≠ null_sentinel.
Proof.
  unfold valid_name. simpl.
  rewrite andb_true_iff, !negb_true_iff, String.eqb_neq, bool_decide_eq_false.
  split; intros [? Hs]; (split; [done|]); intros Heq; apply Hs; congruence.
Qed.

Lemma name_hit_inv needed row :
  name_hit needed row = true →
  ∃ n v, row = NameRow (Some n) (Some v) ∧ n ∈ needed
         ∧ valid_name (Some v) = true.
Proof.
  destruct row as [[n|] [v|]]; unfold name_hit; simpl;
    rewrite ?andb_false_r; try done.
  intros [Hn%bool_decide_eq_true Hv]%andb_true_iff. eauto.
Qed.

Lemma record_name_hit needed (m : gmap string string) row n :
  name_hit needed row = true → nr_nconst row = Some n →
  record_name needed m row !! n = nr_primaryName row.
Proof.
  intros Hhit Hn. destruct (name_hit_inv _ _ Hhit) as (n' & v & -> & _ & _).
  simpl in Hn. injection Hn as ->.
  unfold record_name. rewrite Hhit. simpl. apply lookup_insert_eq.
Qed.

Lemma record_name_other needed (m : gmap string string) row n :
  name_hit needed row = false ∨ nr_nconst row ≠ Some n →
  record_name needed m row !! n = m !! n.
Proof.
  intros Hno. unfold record_name.
  destruct (nr_nconst row) as [n'|]; [|done].
  destruct (nr_primaryName row) as [v|]; [|done].
  destruct (name_hit needed row); [|done].
  destruct Hno as [?|Hne]; [done|].
  apply lookup_insert_ne. congruence.
Qed.

Lemma foldl_record_name_lookup needed rows (m : gmap string string) n v :
  foldl (record_name needed) m rows !! n = Some v →
  (m !! n = Some v
   ∧ ∀ row, row ∈ rows → nr_nconst row = Some n → name_hit needed row = false)
  ∨ (n ∈ needed ∧ valid_name (Some v) = true
     ∧ ∃ l1 l2, rows = l1 ++ NameRow (Some n) (Some v) :: l2
         ∧ ∀ row, row ∈ l2 → nr_nconst row = Some n → name_hit needed row = false).
Proof.
  induction rows as [|x rows IH] using rev_ind.
  - intros Hm. left. split; [done|]. by intros row []%elem_of_nil.
  - rewrite foldl_snoc.
    destruct (name_hit needed x) eqn:Hhit.
    + destruct (decide (nr_nconst x = Some n)) as [Hk|Hk].
      * rewrite (record_name_hit _ _ _ _ Hhit Hk). intros Hv.
        destruct (name_hit_inv _ _ Hhit) as (n' & v' & -> & Hn' & Hv').
        simpl in Hk, Hv. injection Hk as ->. injection Hv as ->.
        right. split_and!; [done..|]. exists rows, [].
        split; [done|]. by intros row []%elem_of_nil.
      * rewrite record_name_other by (by right). intros Hv.
        destruct (IH Hv) as [[Hm Hno]|(Hn & Hval & l1 & l2 & -> & Hno)].
        -- left. split; [done|].
           intros row [? | ->%list_elem_of_singleton]%elem_of_app; [by auto|done].
        -- right. split_and!; [done..|].
           exists l1, (l2 ++ [x]). split; [by rewrite <- app_assoc|].
           intros row [? | ->%list_elem_of_singleton]%elem_of_app; [by auto|done].
    + rewrite record_name_other by (by left). intros Hv.
      destruct (IH Hv) as [[Hm Hno]|(Hn & Hval & l1 & l2 & -> & Hno)].
      * left. split; [done|].
        intros row [? | ->%list_elem_of_singleton]%elem_of_app; [by auto|done].
      * right. split_and!; [done..|].
        exists l1, (l2 ++ [x]). split; [by rewrite <- app_assoc|].
        intros row [? | ->%list_elem_of_singleton]%elem_of_app; [by auto|done].
Qed.

(** X3. A name the resolver returns for a key is the name of the last
    record with that key and a usable name among the records read: the
    key is needed, the name is neither empty nor the sentinel, and no
    later record read for the same key has a usable name. *)
Theorem resolver_name_is_last_valid needed_nconsts name_basics
    (nconst name : string) :
  let r := extract_director_names needed_nconsts name_basics in
  ns_director_names r !! nconst = Some name →
  nconst ∈ needed_nconsts ∧ name ≠ EmptyString ∧ name ≠ null_sentinel
  ∧ ∃ l1 l2,
      take (ns_rows_processed r) name_basics
      = l1 ++ NameRow (Some nconst) (Some name) :: l2
      ∧ ∀ row, row ∈ l2 → nr_nconst row = Some nconst →
               valid_name (nr_primaryName row) = false.
Proof.
  intros r. subst r.
  destruct (scan_names_prefix needed_nconsts name_basics ∅ 0 0)
    as (k & _ & Hrp & Hnames & _).
  unfold extract_director_names. rewrite Hrp, Hnames. simpl.
  intros [[Hm _]|(Hn & Hval & l1 & l2 & Hrows & Hno)]%foldl_record_name_lookup;
    [by rewrite lookup_empty in Hm|].
  apply valid_name_Some in Hval as [? ?]. split_and!; [done..|].
  exists l1, l2. split; [done|]. intros row Hin Hkey.
  specialize (Hno row Hin Hkey). unfold name_hit in Hno.
  rewrite Hkey, bool_decide_eq_true_2 in Hno by done. done.
Qed.

Lemma resolver_name_is_last_valid_witness :
  "n1" ∈ ({[ "n1"; "n2" ]} : gset string) ∧ "Alice" ≠ EmptyString.
Proof.
  destruct (resolver_name_is_last_valid {[ "n1"; "n2" ]} example_names
              "n1" "Alice") as (Hn & Hv & _).
  - vm_compute. reflexivity.
  - split; assumption.
Defined.

Lemma size_foldl_record_name needed rows (m : gmap string string) :
  size (foldl (record_name needed) m rows)
  ≤ size m + length (List.filter (name_hit needed) rows).
Proof.
  revert m. induction rows as [|row rows IH]; intros m; simpl; [lia|].
  etrans; [apply IH|].
  unfold record_name at 1.
  destruct (nr_nconst row) as [n|] eqn:Hn.
  - destruct (nr_primaryName row) as [v|] eqn:Hv.
    + destruct (name_hit needed row); simpl; [|lia].
      rewrite map_size_insert. destruct (m !! n); simpl; lia.
    + destruct (name_hit needed row); simpl; lia.
  - destruct (name_hit needed row); simpl; lia.
Qed.

Lemma scan_names_found_le needed rows (m : gmap string string) (rp nf : nat) :
  nf < size needed →
  ns_names_found (scan_names needed rows m rp nf) ≤ size needed.
Proof.
  revert m rp nf. induction rows as [|row rows IH]; intros m rp nf Hlt.
  - simpl. lia.
  - rewrite scan_names_cons. cbv zeta.
    destruct (_ && _) eqn:Hexit.
    + apply andb_true_iff in Hexit as [_ Hsz%bool_decide_eq_true].
      simpl. lia.
    + destruct (name_hit needed row) eqn:Hhit; [|by apply IH].
      destruct (name_hit_inv _ _ Hhit) as (n & v & -> & Hn & _).
      simpl in Hexit. rewrite bool_decide_eq_true_2 in Hexit by done.
      simpl in Hexit. apply bool_decide_eq_false in Hexit.
      apply IH. lia.
Qed.

(** X4. The counters of the scan are bounded: the resolver returns at
    most as many names as its counter says, the counter never passes
    the number of needed keys, and no more records are counted than the
    extract holds. *)
Theorem resolver_counters_bounded needed_nconsts name_basics :
  let r := extract_director_names needed_nconsts name_basics in
  size (ns_director_names r) ≤ ns_names_found r
  ∧ ns_names_found r ≤ size needed_nconsts
  ∧ ns_rows_processed r ≤ length name_basics.
Proof.
  intros r. subst r.
  destruct (scan_names_prefix needed_nconsts name_basics ∅ 0 0)
    as (k & Hk & Hrp & Hnames & Hnf & _).
  unfold extract_director_names in *. split_and!.
  - rewrite Hnames, Hnf. etrans; [apply size_foldl_record_name|].
    by rewrite map_size_empty.
  - destruct (decide (size needed_nconsts = 0)) as [Hz|Hz].
    + apply size_empty_iff, leibniz_equiv in Hz. subst needed_nconsts.
      by rewrite scan_reads_all_when_nothing_needed.
    + apply scan_names_found_le. lia.
  - lia.
Qed.

Lemma foldl_record_name_no_hit needed rows (m : gmap string string) :
  (∀ row, row ∈ rows → name_hit needed row = false) →
  foldl (record_name needed) m rows = m.
Proof.
  revert m. induction rows as [|row rows IH]; intros m Hno; simpl; [done|].
  assert (record_name needed m row = m) as ->.
  { unfold record_name. rewrite (Hno row) by left.
    by destruct (nr_nconst row), (nr_primaryName row). }
  apply IH. intros row' Hin. apply Hno. by right.
Qed.

(** X5. When no key comes twice in Extract B, the early exit loses
    nothing: the resolver returns the mapping a scan of the whole
    extract accumulates. *)
Theorem early_exit_lossless_on_unique_keys needed_nconsts name_basics :
  NoDup (omap nr_nconst name_basics) →
  ns_director_names (extract_director_names needed_nconsts name_basics)
  = names_accumulated needed_nconsts name_basics.
Proof.
  intros Hnd.
  destruct (scan_names_prefix needed_nconsts name_basics ∅ 0 0)
    as (k & _ & _ & Hnames & Hnf & Hall & Hstop).
  unfold extract_director_names, names_accumulated in *.
  destruct (ns_stopped _) eqn:Hs.
  - specialize (Hstop eq_refl).
    set (m := foldl (record_name needed_nconsts) ∅ (take k name_basics)) in *.
    rewrite <- (take_drop k name_basics) at 2. rewrite foldl_app. fold m.
    rewrite Hnames. symmetry. apply foldl_record_name_no_hit.
    rewrite <- (take_drop k name_basics), omap_app in Hnd.
    apply NoDup_app in Hnd as (Hnd1 & Hdisj & _).
    assert (size m = size needed_nconsts) as Hsize.
    { unfold m. rewrite hits_are_new_keys; [|done|by intros; apply lookup_empty].
      rewrite map_size_empty. lia. }
    assert (dom m = needed_nconsts) as Hdom.
    { apply set_subseteq_size_eq; [|rewrite size_dom; lia].
      intros n [Hn|[Hn _]]%elem_of_dom_foldl_record_name; [|done].
      by rewrite dom_empty_L in Hn. }
    intros row Hrow. destruct (name_hit needed_nconsts row) eqn:Hhit; [|done].
    exfalso. destruct (name_hit_inv _ _ Hhit) as (n & v & -> & Hn & _).
    rewrite <- Hdom in Hn.
    apply elem_of_dom_foldl_record_name in Hn
      as [Hn|(_ & v' & Hin & _)]; [by rewrite dom_empty_L in Hn|].
    apply (Hdisj n).
    + apply list_elem_of_omap. by exists (NameRow (Some n) (Some v')).
    + apply list_elem_of_omap. by exists (NameRow (Some n) (Some v)).
  - rewrite Hnames, (Hall eq_refl). by rewrite firstn_all.
Qed.

Lemma early_exit_lossless_on_unique_keys_witness :
  ns_director_names
    (extract_director_names {[ "n1" ]}
       [ NameRow (Some "n1") (Some "Alice"); NameRow (Some "n2") (Some "Bob") ])
  = names_accumulated {[ "n1" ]}
      [ NameRow (Some "n1") (Some "Alice"); NameRow (Some "n2") (Some "Bob") ].
Proof.
  apply (early_exit_lossless_on_unique_keys {[ "n1" ]}
           [ NameRow (Some "n1") (Some "Alice");
             NameRow (Some "n2") (Some "Bob") ]).
  simpl. apply NoDup_cons. split; [|apply NoDup_singleton].
  rewrite list_elem_of_singleton. discriminate.
Defined.

(** ** Batches that fail *)

Lemma insert_rows_Some_app {R K} `{EqDecision K} (key : R → K)
    (table batch rows : list R) :
  insert_rows key table batch = Some rows → rows = table ++ batch.
Proof.
  revert table. induction batch as [|r batch IH]; intros table; simpl.
  - intros [= <-]. by rewrite app_nil_r.
  - case_decide; [done|]. intros ->%IH. by rewrite <- app_assoc.
Qed.

Section batched_outcome.
Context {R : Type} (executemany : list R → M unit) (T : list R → store).
Context (V : list R → Prop) (bs : nat).
Hypothesis bs_pos : 0 < bs.
Hypothesis bs_full : ∀ b : list R,
  (batch_size <=? N.of_nat (length b))%N = true ↔ bs ≤ length b.
Hypothesis executemany_outcome : ∀ written batch,
  V written →
  (executemany batch (T written) = (inr tt, T (written ++ batch))
   ∧ V (written ++ batch))
  ∨ ∃ e, executemany batch (T written) = (inl e, T written).

(** The loop writes whole batches of [bs] rows, and stops at the first
    batch that fails. *)
Lemma insert_batched_outcome (items written batch : list R) :
  length batch < bs → V written →
  ∃ j,
    V (written ++ take (j * bs) (batch ++ items))
    ∧ ((∃ batch',
          insert_batched executemany items batch (T written)
          = (inr batch', T (written ++ take (j * bs) (batch ++ items)))
          ∧ batch' = drop (j * bs) (batch ++ items)
          ∧ length batch' < bs)
       ∨ (∃ e,
            insert_batched executemany items batch (T written)
            = (inl e, T (written ++ take (j * bs) (batch ++ items)))
            ∧ j * bs < length (batch ++ items))).
Proof.
  revert written batch.
  induction items as [|item items IH]; intros written batch Hlen HV.
  - exists 0. simpl. rewrite !app_nil_r. split; [done|].
    left. by exists batch.
  - cbn [insert_batched].
    destruct (batch_size <=? N.of_nat (length (batch ++ [item])))%N eqn:Hfull.
    + apply bs_full in Hfull.
      assert (length (batch ++ [item]) = bs) as Hbs
        by (rewrite length_app in *; simpl in *; lia).
      replace (batch ++ item :: items) with ((batch ++ [item]) ++ items)
        by (by rewrite <- app_assoc).
      destruct (executemany_outcome written (batch ++ [item]) HV)
        as [[Hok HV']|[e Hfail]].
      * rewrite (run_bind_ok _ _ _ _ _ Hok).
        unfold commit. rewrite (run_bind_ok _ _ _ _ tt (run_ret _ _)).
        destruct (IH (written ++ batch ++ [item]) []) as (j & HVj & Hj);
          [done..|].
        exists (S j). rewrite Nat.mul_succ_l, (Nat.add_comm (j * bs)).
        rewrite take_app_add', drop_app_add' by done.
        simpl in Hj, HVj. rewrite <- ?app_assoc in Hj, HVj.
        rewrite <- ?app_assoc. split; [done|].
        destruct Hj as [Hj|(e & Hrun & Hlt)]; [by left|].
        right. exists e. split; [done|].
        rewrite length_app in Hbs. rewrite !length_app. lia.
      * exists 0. simpl. rewrite app_nil_r. split; [done|].
        right. exists e. rewrite run_bind, Hfail.
        split; [done|]. rewrite length_app, Hbs. lia.
    + assert (length (batch ++ [item]) < bs) as Hlt.
      { destruct (decide (bs ≤ length (batch ++ [item]))) as [Hle|]; [|lia].
        apply bs_full in Hle. congruence. }
      destruct (IH written (batch ++ [item]) Hlt HV) as [j Hj].
      exists j. by rewrite <- app_assoc in Hj.
Qed.

Lemma insert_all_outcome (items written : list R) :
  V written →
  ∃ j,
    V (written ++ take (j * bs) items)
    ∧ (((insert_batched executemany items [] ≫= insert_remaining executemany)
          (T written)
        = (inr tt, T (written ++ take (j * bs) items))
        ∧ length items ≤ j * bs)
       ∨ (∃ e,
            (insert_batched executemany items [] ≫= insert_remaining executemany)
              (T written)
            = (inl e, T (written ++ take (j * bs) items))
            ∧ j * bs < length items)).
Proof.
  intros HV.
  destruct (insert_batched_outcome items written [] bs_pos HV)
    as (j & HVj & [(batch' & Hrun & Hbatch & Hlen)|(e & Hrun & Hlt)]);
    simpl in *.
  - rewrite (run_bind_ok _ _ _ _ _ Hrun).
    destruct (decide (batch' = [])) as [Hnil|Hne].
    + exists j. split; [done|]. left. rewrite Hnil. split; [done|].
      assert (length (drop (j * bs) items) = 0) as Hz
        by (by rewrite <- Hbatch, Hnil).
      rewrite length_drop in Hz. lia.
    + assert (insert_remaining executemany batch'
              = (executemany batch' ;; commit)) as ->
        by (by destruct batch').
      assert (j * bs < length items) as Hlt.
      { destruct (decide (j * bs < length items)) as [|Hge]; [done|].
        rewrite drop_ge in Hbatch by lia. done. }
      destruct (executemany_outcome (written ++ take (j * bs) items) batch' HVj)
        as [[Hok HV']|[e Hfail]].
      * pose proof (Nat.mul_le_mono_l 1 bs (length items) bs_pos) as Hmul.
        assert ((written ++ take (j * bs) items) ++ batch' = written ++ items)
          as Hall by (by rewrite Hbatch, <- app_assoc, take_drop).
        rewrite Hall in *.
        exists (length items).
        rewrite (take_ge items (length items * bs)) by lia.
        split; [done|]. left. rewrite (run_bind_ok _ _ _ _ _ Hok).
        split; [done|lia].
      * exists j. split; [done|]. right. exists e.
        by rewrite run_bind, Hfail.
  - exists j. split; [done|]. right. exists e. by rewrite run_bind, Hrun.
Qed.
End batched_outcome.

Lemma insert_directors_unfold director_names :
  insert_directors director_names
  = (insert_batched executemany_directors (map_to_list director_names) []
     ≫= insert_remaining executemany_directors).
Proof. reflexivity. Qed.

Lemma insert_movie_directors_unfold director_movies :
  insert_movie_directors director_movies
  = (insert_batched executemany_movie_directors (link_rows director_movies) []
     ≫= insert_remaining executemany_movie_directors).
Proof. reflexivity. Qed.

Lemma batch_size_pos : 0 < N.to_nat batch_size.
Proof. unfold batch_size. lia. Qed.

Lemma batch_size_full {R} (b : list R) :
  (batch_size <=? N.of_nat (length b))%N = true ↔ N.to_nat batch_size ≤ length b.
Proof. rewrite N.leb_le. lia. Qed.

Lemma executemany_directors_outcome ms links fts (written batch : list director_row) :
  NoDup written.*1 →
  (executemany_directors batch (Store ms (Some written) links fts)
   = (inr tt, Store ms (Some (written ++ batch)) links fts)
   ∧ NoDup (written ++ batch).*1)
  ∨ ∃ e, executemany_directors batch (Store ms (Some written) links fts)
         = (inl e, Store ms (Some written) links fts).
Proof.
  intros Hnd. unfold executemany_directors. rewrite run_bind. simpl.
  destruct (insert_rows fst written batch) as [rows|] eqn:Hins.
  - left. destruct (insert_rows_keeps_key _ _ _ _ Hins Hnd) as [-> ?]. done.
  - right. by eexists.
Qed.




(** X7. Loading directors into a table with unique keys returns
    normally exactly when no new key is already in the table. *)
Theorem insert_directors_succeeds_iff_keys_new
    (director_names : gmap string string) (st : store) (rows : list director_row) :
  directors st = Some rows → NoDup rows.*1 →
  (insert_directors director_names st).1 = inr tt
  ↔ ∀ nconst, nconst ∈ dom director_names → nconst ∉ rows.*1.
Proof.
  destruct st as [ms ds links fts]. simpl. intros -> Hnd. split.
  - intros Hok.
    destruct (insert_all_outcome executemany_directors
                (λ rows, Store ms (Some rows) links fts)
                (λ rows, NoDup rows.*1) (N.to_nat batch_size)
                batch_size_pos batch_size_full
                (executemany_directors_outcome ms links fts)
                (map_to_list director_names) rows Hnd)
      as (j & HV & [[Hrun Hlen]|(e & Hrun & Hlt)]);
      rewrite insert_directors_unfold, Hrun in Hok; [|done].
    rewrite take_ge, fmap_app in HV by done.
    apply NoDup_app in HV as (_ & Hdisj & _).
    intros n Hn Hin. apply elem_of_dom in Hn as [v Hv]. apply (Hdisj n Hin).
    apply list_elem_of_fmap. exists (n, v). split; [done|].
    by apply elem_of_map_to_list.
  - intros Hnew. rewrite insert_directors_unfold.
    rewrite <- (app_nil_r rows) at 1.
    rewrite (insert_all_run executemany_directors
               (λ w, Store ms (Some (rows ++ w)) links fts)
               (map_to_list director_names)); [done|].
    intros written batch [k Hk]. unfold executemany_directors.
    rewrite run_bind. simpl. rewrite insert_rows_NoDup; [by rewrite app_assoc|].
    rewrite <- app_assoc, !fmap_app, app_assoc, <- fmap_app.
    assert (NoDup (rows ++ map_to_list director_names).*1) as Hall.
    { rewrite fmap_app. apply NoDup_app. split_and!; [done| |apply NoDup_fst_map_to_list].
      intros n Hn ([n' v] & -> & Hv%elem_of_map_to_list)%list_elem_of_fmap.
      apply (Hnew n'); [|done]. apply elem_of_dom. by exists v. }
    rewrite Hk, !fmap_app, app_assoc in Hall. rewrite fmap_app, <- app_assoc.
    by apply NoDup_app in Hall as [? _].
Qed.

Lemma insert_directors_succeeds_iff_keys_new_witness :
  (insert_directors {[ "n1" := "Alice" ]}
     (Store [] (Some [("n1", "Zoe")]) None None)).1 ≠ inr tt.
Proof.
  intros Hok.
  apply (proj1 (insert_directors_succeeds_iff_keys_new {[ "n1" := "Alice" ]}
                  (Store [] (Some [("n1", "Zoe")]) None None) [("n1", "Zoe")]
                  eq_refl (NoDup_singleton _)) Hok "n1").
  - vm_compute. reflexivity.
  - simpl. left.
Defined.



(** ** The tables of a run, read against the inputs *)

Lemma linked_extract existing_movies title_principals t n :
  linked (extract_director_relationships existing_movies title_principals) t n
  ↔ ∃ row, row ∈ title_principals ∧ director_record existing_movies row t n.
Proof.
  unfold extract_director_relationships.
  rewrite linked_foldl_relationship_step. split; [|by right].
  intros [(ts & Hts & _)|Hrow]; [by rewrite lookup_empty in Hts|done].
Qed.

Lemma extract_director_names_lookup needed name_basics n v :
  ns_director_names (extract_director_names needed name_basics) !! n = Some v →
  n ∈ needed ∧ valid_name (Some v) = true
  ∧ NameRow (Some n) (Some v) ∈ name_basics.
Proof.
  destruct (scan_names_prefix needed name_basics ∅ 0 0)
    as (k & _ & _ & Hnames & _).
  unfold extract_director_names. rewrite Hnames.
  intros [[Hm _]|(Hn & Hval & l1 & l2 & Hrows & _)]%foldl_record_name_lookup;
    [by rewrite lookup_empty in Hm|].
  split_and!; [done..|].
  rewrite <- (take_drop k name_basics), Hrows.
  apply elem_of_app. left. apply elem_of_app. right. left.
Qed.

Lemma dom_extract_nonempty_key existing_movies title_principals n :
  n ∈ dom (extract_director_relationships existing_movies title_principals) →
  n ≠ EmptyString
  ∧ ∃ t, linked (extract_director_relationships existing_movies title_principals) t n.
Proof.
  intros [ts Hts]%elem_of_dom.
  destruct (extract_director_relationships_ok _ _ _ _ Hts) as [[t Ht]%set_choose_L _].
  assert (linked (extract_director_relationships existing_movies title_principals) t n)
    as Hl by (by exists ts).
  split; [|by exists t].
  apply linked_extract in Hl as (row & _ & (_ & _ & _ & _ & Hn & _)). done.
Qed.

(** X9. A run does not look at what the derived tables hold: from two
    stores with the same movie table it returns the same result and
    leaves the same store, so a rerun after a run that broke off gives
    what a run on a clean store gives. *)
Theorem build_ignores_derived_tables title_principals name_basics (st1 st2 : store) :
  movies st1 = movies st2 →
  build title_principals name_basics st1 = build title_principals name_basics st2.
Proof. intros Hm. by rewrite !build_run, Hm. Qed.

Lemma build_ignores_derived_tables_witness :
  build example_principals example_names example_store
  = build example_principals example_names
      (Store [MovieRow "t1" []; MovieRow "t2" []]
         (Some [("n9", "Zoe")]) (Some (LinkTable [("t9", "n9")] ["idx"])) None).
Proof.
  apply (build_ignores_derived_tables example_principals example_names).
  reflexivity.
Defined.

(** X10. Where the rows of a run come from: a director row carries a
    non-empty key and a name that is neither empty nor the sentinel,
    and Extract B holds a record with this key and this name; a link
    row carries two non-empty keys and Extract A holds a director
    record with them. *)
Theorem rows_come_from_the_extracts title_principals name_basics (st : store) :
  let st' := (build title_principals name_basics st).2 in
  (∀ nconst name, (nconst, name) ∈ director_rows st' →
     nconst ≠ EmptyString ∧ name ≠ EmptyString ∧ name ≠ null_sentinel
     ∧ NameRow (Some nconst) (Some name) ∈ name_basics)
  ∧ (∀ tconst nconst, (tconst, nconst) ∈ movie_director_rows st' →
       tconst ≠ EmptyString ∧ nconst ≠ EmptyString
       ∧ PrincipalRow (Some tconst) (Some nconst) (Some "director")
         ∈ title_principals).
Proof.
  cbv zeta. rewrite build_run.
  unfold director_rows, movie_director_rows, rebuilt_store. simpl. split.
  - intros n name Hrow%elem_of_map_to_list.
    apply extract_director_names_lookup in Hrow as (Hn & [? ?]%valid_name_Some & Hin).
    apply dom_extract_nonempty_key in Hn as [? _]. done.
  - intros t n (ts & [Hts _]%filter_named_lookup & Ht)%elem_of_link_rows.
    assert (linked (extract_director_relationships
                      (list_to_set (mv_tconst <$> movies st)) title_principals) t n)
      as (row & Hin & (Hc & Hrt & ? & Hrn & ? & _))%linked_extract
      by (by exists ts).
    split_and!; [done..|].
    destruct row as [rt rn rc]; simpl in *. by subst.
Qed.

Lemma rows_come_from_the_extracts_witness :
  "n1" ≠ EmptyString ∧ "Alice" ≠ EmptyString ∧ "Alice" ≠ null_sentinel
  ∧ NameRow (Some "n1") (Some "Alice") ∈ example_names.
Proof.
  apply (proj1 (rows_come_from_the_extracts example_principals example_names
                  example_store) "n1" "Alice").
  vm_compute. left.
Defined.

Lemma omap_key_unique {A K} (f : A → option K) (l : list A) (x y : A) (k : K) :
  NoDup (omap f l) → x ∈ l → y ∈ l → f x = Some k → f y = Some k → x = y.
Proof.
  induction l as [|a l IH]; simpl; [by intros _ []%elem_of_nil|].
  intros Hnd [->|Hx]%elem_of_cons [->|Hy]%elem_of_cons Hfx Hfy; [done| | |].
  - rewrite Hfx in Hnd. apply NoDup_cons in Hnd as [Hnot _].
    exfalso. apply Hnot, list_elem_of_omap. eauto.
  - rewrite Hfy in Hnd. apply NoDup_cons in Hnd as [Hnot _].
    exfalso. apply Hnot, list_elem_of_omap. eauto.
  - apply IH; [|done..]. destruct (f a); [|done].
    by apply NoDup_cons in Hnd as [_ ?].
Qed.

(** X11. When no key comes twice in Extract B the tables are complete:
    a director record of Extract A for a known movie, whose person has
    a record with a usable name in Extract B, gives the director row
    with that name and the link row. *)
Theorem tables_complete_on_unique_keys title_principals name_basics (st : store)
    (tconst nconst name : string) :
  NoDup (omap nr_nconst name_basics) →
  PrincipalRow (Some tconst) (Some nconst) (Some "director") ∈ title_principals →
  tconst ≠ EmptyString → nconst ≠ EmptyString →
  tconst ∈ mv_tconst <$> movies st →
  NameRow (Some nconst) (Some name) ∈ name_basics →
  name ≠ EmptyString → name ≠ null_sentinel →
  let st' := (build title_principals name_basics st).2 in
  (nconst, name) ∈ director_rows st' ∧ (tconst, nconst) ∈ movie_director_rows st'.
Proof.
  intros Hnd HA Ht Hn Hmovie HB Hname Hsent. cbv zeta. rewrite build_run.
  unfold director_rows, movie_director_rows, rebuilt_store. simpl.
  set (existing := list_to_set (mv_tconst <$> movies st) : gset string).
  set (dm := extract_director_relationships existing title_principals).
  set (names := ns_director_names (extract_director_names (dom dm) name_basics)).
  assert (linked dm tconst nconst) as (ts & Hts & Hin).
  { apply linked_extract. eexists. split; [exact HA|].
    split_and!; try done. by apply elem_of_list_to_set. }
  assert (names !! nconst = Some name) as Hlook.
  { assert (nconst ∈ dom names) as [v Hv]%elem_of_dom.
    { unfold names.
      destruct (scan_names_prefix (dom dm) name_basics ∅ 0 0)
        as (k & _ & _ & Hnames & Hnf & Hall & Hstop).
      pose proof (hits_are_new_keys (dom dm) (take k name_basics) ∅) as Hhits.
      unfold extract_director_names in *.
      destruct (ns_stopped _) eqn:Hs.
      - assert (dom (ns_director_names (scan_names (dom dm) name_basics ∅ 0 0))
                = dom dm) as ->; [|apply elem_of_dom; by exists ts].
        apply set_subseteq_size_eq.
        + apply (extract_director_names_dom (dom dm) name_basics).
        + rewrite (size_dom (ns_director_names _)), Hnames, Hhits, map_size_empty;
            [rewrite <- (Hstop eq_refl), Hnf; lia| |by intros; apply lookup_empty].
          rewrite <- (take_drop k name_basics), omap_app in Hnd.
          by apply NoDup_app in Hnd as [? _].
      - rewrite Hnames, (Hall eq_refl), firstn_all.
        apply elem_of_dom_foldl_record_name. right. split.
        + apply elem_of_dom. by exists ts.
        + exists name. split; [done|]. by apply valid_name_Some. }
    pose proof Hv as (_ & _ & HB')%extract_director_names_lookup.
    assert (NameRow (Some nconst) (Some v) = NameRow (Some nconst) (Some name))
      as [= ->]; [|done].
    by apply (omap_key_unique nr_nconst name_basics _ _ nconst). }
  split.
  - by apply elem_of_map_to_list.
  - apply elem_of_link_rows. exists ts. split; [|done].
    apply filter_named_lookup. split; [done|]. apply elem_of_dom. by exists name.
Qed.

Lemma tables_complete_on_unique_keys_witness :
  ("n1", "Alice")
    ∈ director_rows (build example_principals example_names example_store).2
  ∧ ("t1", "n1")
    ∈ movie_director_rows (build example_principals example_names example_store).2.
Proof.
  apply (tables_complete_on_unique_keys example_principals example_names
           example_store "t1" "n1" "Alice").
  - simpl. apply NoDup_cons. split; [|apply NoDup_singleton].
    rewrite list_elem_of_singleton. discriminate.
  - left.
  - discriminate.
  - discriminate.
  - simpl. left.
  - left.
  - discriminate.
  - discriminate.
Defined.

Lemma filter_named_empty (director_movies : gmap string (gset string)) :
  filter_named ∅ director_movies = ∅.
Proof.
  apply map_empty. intros n.
  destruct (filter_named ∅ director_movies !! n) as [ts|] eqn:Hts; [|done].
  apply filter_named_lookup in Hts as [_ Hn]. by rewrite dom_empty_L in Hn.
Qed.

Lemma extract_director_names_nothing_needed name_basics :
  ns_director_names (extract_director_names ∅ name_basics) = ∅.
Proof.
  unfold extract_director_names.
  by rewrite scan_reads_all_when_nothing_needed.
Qed.

Lemma extract_director_relationships_no_movies title_principals :
  extract_director_relationships ∅ title_principals = ∅.
Proof.
  apply map_empty. intros n.
  destruct (extract_director_relationships ∅ title_principals !! n)
    as [ts|] eqn:Hts; [|done].
  destruct (extract_director_relationships_ok _ _ _ _ Hts)
    as [[t Ht]%set_choose_L Hsub].
  by apply Hsub, not_elem_of_empty in Ht.
Qed.

(** X12. With no movie in the store, or no record in Extract A, or no
    record in Extract B, a run returns normally and leaves the derived
    tables created, indexed and empty. *)
Theorem build_on_empty_input title_principals name_basics (st : store) :
  movies st = [] ∨ title_principals = [] ∨ name_basics = [] →
  build title_principals name_basics st
  = (inr tt,
     Store (movies st) (Some [])
       (Some (LinkTable []
                ["idx_movie_directors_tconst"; "idx_movie_directors_nconst"]))
       (Some [])).
Proof.
  intros Hempty. rewrite build_run. unfold rebuilt_store.
  set (dm := extract_director_relationships _ _).
  assert (ns_director_names (extract_director_names (dom dm) name_basics) = ∅)
    as ->.
  { destruct Hempty as [Hm|[HA|HB]].
    - unfold dm. rewrite Hm.
      change (list_to_set (mv_tconst <$> [])) with (∅ : gset string).
      rewrite extract_director_relationships_no_movies, dom_empty_L.
      apply extract_director_names_nothing_needed.
    - unfold dm. rewrite HA.
      change (extract_director_relationships _ [])
        with (∅ : gmap string (gset string)).
      rewrite dom_empty_L.
      apply extract_director_names_nothing_needed.
    - by rewrite HB. }
  rewrite filter_named_empty. unfold link_rows.
  by rewrite !map_to_list_empty.
Qed.

Lemma build_on_empty_input_witness :
  build [] example_names example_store
  = (inr tt,
     Store (movies example_store) (Some [])
       (Some (LinkTable []
                ["idx_movie_directors_tconst"; "idx_movie_directors_nconst"]))
       (Some [])).
Proof.
  apply (build_on_empty_input [] example_names example_store).
  right. left. reflexivity.
Defined.

Lemma length_le_by_key {A B K} (f : A → K) (g : B → K) (l : list A) (k : list B) :
  NoDup (f <$> l) → (∀ x, x ∈ l → ∃ y, y ∈ k ∧ g y = f x) →
  length l ≤ length k.
Proof.
  intros Hnd Hsub. rewrite <- (length_fmap f l), <- (length_fmap g k).
  apply submseteq_length, NoDup_submseteq; [done|].
  intros key (x & -> & Hx)%list_elem_of_fmap.
  destruct (Hsub x Hx) as (y & Hy & <-). by apply list_elem_of_fmap_2.
Qed.

(** X13. The two counts that [print_stats] reads after a run are the
    numbers of director rows and of link rows; there are never more
    directors than links, more links than records in Extract A, or more
    directors than records in Extract B. *)
Theorem print_stats_after_build title_principals name_basics (st : store) :
  let st' := (build title_principals name_basics st).2 in
  print_stats st'
  = (inr (length (director_rows st'), length (movie_director_rows st')), st')
  ∧ length (director_rows st') ≤ length (movie_director_rows st')
  ∧ length (movie_director_rows st') ≤ length title_principals
  ∧ length (director_rows st') ≤ length name_basics.
Proof.
  cbv zeta. rewrite build_run.
  unfold director_rows, movie_director_rows, rebuilt_store. simpl.
  set (existing := list_to_set (mv_tconst <$> movies st) : gset string).
  set (dm := extract_director_relationships existing title_principals).
  set (names := ns_director_names (extract_director_names (dom dm) name_basics)).
  split_and!; [done| | |].
  - apply (length_le_by_key fst snd); [apply NoDup_fst_map_to_list|].
    intros [n name] Hname%elem_of_map_to_list. simpl.
    assert (n ∈ dom dm) as [ts Hts]%elem_of_dom.
    { apply (extract_director_names_dom (dom dm) name_basics).
      apply elem_of_dom. by exists name. }
    destruct (extract_director_relationships_ok _ _ _ _ Hts)
      as [[t Ht]%set_choose_L _].
    exists (t, n). split; [|done].
    apply elem_of_link_rows. exists ts. split; [|done].
    apply filter_named_lookup. split; [done|]. apply elem_of_dom. by exists name.
  - apply (length_le_by_key Some
             (λ row, t ← pr_tconst row; n ← pr_nconst row; Some (t, n))).
    { apply NoDup_fmap_2; [apply _|apply NoDup_link_rows]. }
    intros [t n] (ts & [Hts _]%filter_named_lookup & Ht)%elem_of_link_rows.
    assert (linked dm t n) as (row & Hin & (_ & Hrt & _ & Hrn & _))%linked_extract
      by (by exists ts).
    exists row. split; [done|]. by rewrite Hrt, Hrn.
  - apply (length_le_by_key (Some ∘ fst) nr_nconst).
    { rewrite (list_fmap_compose (@fst string string) Some).
      apply NoDup_fmap_2; [apply _|apply NoDup_fst_map_to_list]. }
    intros [n name] Hname%elem_of_map_to_list. simpl.
    apply extract_director_names_lookup in Hname as (_ & _ & Hin).
    by exists (NameRow (Some n) (Some name)).
Qed.

(** X14. The three creation steps have no [IF NOT EXISTS]: on the store
    a run leaves, each of them raises on the first object it finds in
    place and changes nothing, so a rerun has to start with the drops. *)
Theorem creation_steps_fail_after_a_run title_principals name_basics (st : store) :
  let st' := (build title_principals name_basics st).2 in
  create_tables st' = (inl (TableExists "directors"), st')
  ∧ create_fts_index st' = (inl (TableExists "directors_fts"), st')
  ∧ create_indexes st' = (inl (IndexExists "idx_movie_directors_tconst"), st').
Proof.
  cbv zeta. rewrite build_run. split_and!; reflexivity.
Qed.

(** X15. On a store that has a directors table and no search table,
    [create_fts_index] returns normally and writes one search entry per
    director row, in the order of the rows: the entries carry the names
    of the rows and the ranks 1, 2, ... as row identifiers; nothing else
    changes. *)
Theorem create_fts_index_mirrors_directors (st : store) (rows : list director_row) :
  directors st = Some rows → directors_fts st = None →
  ∃ fts,
    create_fts_index st
    = (inr tt, Store (movies st) (Some rows) (movie_directors st) (Some fts))
    ∧ fts.*2 = rows.*2
    ∧ fts.*1 = seq 1 (length rows).
Proof.
  destruct st as [ms ds links fts0]. simpl. intros -> ->.
  eexists. split; [apply create_fts_index_run|]. split.
  - rewrite fmap_imap. apply imap_const.
  - apply fst_fts_rows.
Qed.

Lemma create_fts_index_mirrors_directors_witness :
  ∃ fts,
    create_fts_index (Store [] (Some [("n1", "Alice"); ("n2", "Bob")]) None None)
    = (inr tt, Store [] (Some [("n1", "Alice"); ("n2", "Bob")]) None (Some fts))
    ∧ fts.*2 = ["Alice"; "Bob"]
    ∧ fts.*1 = [1; 2].
Proof.
  apply (create_fts_index_mirrors_directors
           (Store [] (Some [("n1", "Alice"); ("n2", "Bob")]) None None)
           [("n1", "Alice"); ("n2", "Bob")]); reflexivity.
Defined.

(** ** Loading without a table *)

Lemma insert_all_always_failing {R} (executemany : list R → M unit)
    (e : db_error) (st : store) (items batch : list R) :
  (∀ b, executemany b st = (inl e, st)) →
  batch ++ items ≠ [] →
  (insert_batched executemany items batch ≫= insert_remaining executemany) st
  = (inl e, st).
Proof.
  intros Hfail. revert batch.
  induction items as [|item items IH]; intros batch Hne.
  - rewrite app_nil_r in Hne. rewrite run_bind. simpl.
    destruct batch; [done|]. simpl. by rewrite run_bind, Hfail.
  - rewrite run_bind. cbn [insert_batched].
    destruct (batch_size <=? _)%N.
    + by rewrite run_bind, Hfail.
    + rewrite <- run_bind. apply IH. by destruct batch.
Qed.

(** X16. The two load steps need their table: with rows to write and
    the table absent they raise [NoSuchTable] and leave the store as it
    was; with nothing to write [insert_directors] returns normally on
    any store and issues no statement. *)
Theorem load_steps_need_their_table (st : store) :
  (∀ director_names : gmap string string,
     directors st = None → director_names ≠ ∅ →
     insert_directors director_names st = (inl (NoSuchTable "directors"), st))
  ∧ (∀ director_movies : gmap string (gset string),
       movie_directors st = None → link_rows director_movies ≠ [] →
       insert_movie_directors director_movies st
       = (inl (NoSuchTable "movie_directors"), st))
  ∧ insert_directors ∅ st = (inr tt, st).
Proof.
  split_and!.
  - intros names Hnone Hne. rewrite insert_directors_unfold.
    apply insert_all_always_failing.
    + intros b. unfold executemany_directors. rewrite run_bind. simpl.
      by rewrite Hnone.
    + intros Heq. apply Hne. by apply map_to_list_empty_iff.
  - intros dm Hnone Hne. rewrite insert_movie_directors_unfold.
    apply insert_all_always_failing; [|done].
    intros b. unfold executemany_movie_directors. rewrite run_bind. simpl.
    by rewrite Hnone.
  - rewrite insert_directors_unfold, map_to_list_empty. reflexivity.
Qed.

Lemma load_steps_need_their_table_witness :
  insert_directors {[ "n1" := "Alice" ]} example_store
  = (inl (NoSuchTable "directors"), example_store).
Proof.
  apply (proj1 (load_steps_need_their_table example_store)
           {[ "n1" := "Alice" ]}).
  - reflexivity.
  - apply insert_non_empty.
Defined.

(** ** The copy loop of the compression *)

Lemma chunk_size_pos : 0 < N.to_nat chunk_size.
Proof. unfold chunk_size. lia. Qed.

Lemma copy_chunks_run (reads : nat) (f_in written : list Byte.byte)
    (bytes_written : N) (progress : list N) :
  length f_in < reads →
  ∃ progress',
    copy_chunks reads f_in written bytes_written progress
    = Some (CopyResult (written ++ f_in)
              (bytes_written + N.of_nat (length f_in)) progress')
    ∧ progress `prefix_of` progress'.
Proof.
  revert f_in written bytes_written progress.
  induction reads as [|reads IH]; intros f_in written bytes_written progress Hlen;
    [lia|].
  cbn [copy_chunks].
  pose proof chunk_size_pos as Hpos.
  destruct (take (N.to_nat chunk_size) f_in) as [|b chunk] eqn:Hchunk.
  - assert (f_in = []) as ->.
    { destruct f_in as [|b f_in]; [done|].
      destruct (N.to_nat chunk_size); [lia|done]. }
    exists progress. rewrite app_nil_r. simpl.
    by rewrite N.add_0_r.
  - rewrite <- Hchunk.
    assert (0 < length (take (N.to_nat chunk_size) f_in)) as Htake
      by (rewrite Hchunk; simpl; lia).
    pose proof (take_drop (N.to_nat chunk_size) f_in) as Hsplit.
    assert (length f_in
            = length (take (N.to_nat chunk_size) f_in)
              + length (drop (N.to_nat chunk_size) f_in)) as Hsum
      by (by rewrite <- length_app, Hsplit).
    match goal with
    | |- context [copy_chunks reads ?i ?w ?n ?p] =>
        destruct (IH i w n p) as (progress' & Hrun & Hpre); [lia|]
    end.
    exists progress'. rewrite Hrun. split.
    + f_equal. f_equal; [by rewrite <- app_assoc, Hsplit|lia].
    + etrans; [|exact Hpre]. destruct (_ =? _)%N; [by apply prefix_app_r|done].
Qed.

(** X17. The copy loop of [compress_database] ends on every file after
    at most one read per byte and one more, whatever more reads it is
    allowed; the bytes it has handed to the gzip writer are then the
    bytes of the file, in order, and [bytes_written] is the size of the
    file. *)
Theorem copy_loop_hands_over_the_file (f_in : list Byte.byte) (more : nat) :
  ∃ progress,
    copy_chunks (S (length f_in) + more) f_in [] 0 []
    = Some (CopyResult f_in (N.of_nat (length f_in)) progress).
Proof.
  destruct (copy_chunks_run (S (length f_in) + more) f_in [] 0 [])
    as (progress & Hrun & _); [lia|].
  exists progress. by rewrite Hrun.
Qed.

(** ** [main] and its three inputs *)



(** ** Creating the tables *)

(** X19. [create_tables] is not atomic: it raises on the first of the
    two tables that is already there, and when that is the link table
    the directors table has been created before the failure. It returns
    normally when neither table is there, so it always does right after
    [drop_existing_tables], which leaves the store with no derived
    table at all. *)
Theorem create_tables_outcome (st : store) :
  match directors st, movie_directors st with
  | Some _, _ => create_tables st = (inl (TableExists "directors"), st)
  | None, Some _ =>
      create_tables st
      = (inl (TableExists "movie_directors"),
         Store (movies st) (Some []) (movie_directors st) (directors_fts st))
  | None, None =>
      create_tables st
      = (inr tt,
         Store (movies st) (Some []) (Some (LinkTable [] [])) (directors_fts st))
  end
  ∧ (drop_existing_tables ;; create_tables) st
    = (inr tt, Store (movies st) (Some []) (Some (LinkTable [] [])) None).
Proof.
  destruct st as [ms [ds|] [t|] fts]; split; reflexivity.
Qed.
